(** * MiniTest: the failure and predicate-context tracking of [TestResult],
    failure printing and the [Runner], embedded from [src/MiniTest.h] and
    [src/MiniTest.cpp]. *)

From Stdlib Require Import ZArith NArith Lia Ascii String.
From stdpp Require Import base option list gmap strings pretty.

Local Open Scope N_scope.

(** ** Machine integers *)

(** [unsigned int] is 32 bits wide: arithmetic on it is reduced modulo
    [2^32].  Values of that type are carried as [N]. *)
Definition UINT_MODULUS : N := 2 ^ 32.
Definition wrap32 (n : N) : N := n mod UINT_MODULUS.

(** ** Outcomes of running the code *)

(** A run either finishes with a value, exhausts the fuel given to one of its
    loops, or dereferences a pointer that designates no object. *)
Inductive outcome (A : Type) : Type :=
  | Done (a : A)
  | OutOfFuel
  | Undefined.
Arguments Done {A} a.
Arguments OutOfFuel {A}.
Arguments Undefined {A}.

#[global] Instance outcome_ret : MRet outcome := @Done.
#[global] Instance outcome_bind : MBind outcome := λ A B f x,
  match x with
  | Done a => f a
  | OutOfFuel => OutOfFuel
  | Undefined => Undefined
  end.

(** ** Pointers *)

(** Predicate frames live in the callers' stack memory, at an address. *)
Definition addr := N.

(** The target of a non-null [PredicateContext*]: the root node embedded in
    the [TestResult], or a frame at some address.  The null pointer is
    [None] in [option NodePtr]. *)
Inductive NodePtr : Type :=
  | Root
  | Frame (a : addr).

#[global] Instance NodePtr_eq_dec : EqDecision NodePtr.
Proof. solve_decision. Defined.

(** A non-null [Failure*] always designates an element of the [failures_]
    deque (whose [push_back] keeps references to its elements valid); it is
    carried as the index of that element. *)
Definition FailurePtr := nat.

(** ** class Failure *)
Module Failure.
Record t : Type := mk {
  file_ : option string;      (* const char*, may be null *)
  line_ : N;                  (* unsigned int *)
  expr_ : string;
  message_ : string;
  nestingLevel_ : N           (* unsigned int *)
}.

Definition set_message_ (v : string) (f : t) : t :=
  mk (file_ f) (line_ f) (expr_ f) v (nestingLevel_ f).
End Failure.

(** ** struct PredicateContext *)
Module PredicateContext.
Record t : Type := mk {
  id_ : N;                    (* Id = unsigned int *)
  file_ : option string;
  line_ : N;
  expr_ : option string;      (* const char*, NULL allowed *)
  next_ : option NodePtr;
  failure_ : option FailurePtr
}.

Definition set_next_ (v : option NodePtr) (c : t) : t :=
  mk (id_ c) (file_ c) (line_ c) (expr_ c) v (failure_ c).
Definition set_failure_ (v : option FailurePtr) (c : t) : t :=
  mk (id_ c) (file_ c) (line_ c) (expr_ c) (next_ c) v.
End PredicateContext.

(** ** class TestResult *)
Module TestResult.
Record t : Type := mk {
  predicateId_ : N;
  predicateStackTail_ : option NodePtr;
  failures_ : list Failure.t;
  name_ : string;
  rootPredicateNode_ : PredicateContext.t;
  lastUsedPredicateId_ : N;
  messageTarget_ : option FailurePtr
}.

Definition set_predicateId_ v r :=
  mk v (predicateStackTail_ r) (failures_ r) (name_ r)
     (rootPredicateNode_ r) (lastUsedPredicateId_ r) (messageTarget_ r).
Definition set_predicateStackTail_ v r :=
  mk (predicateId_ r) v (failures_ r) (name_ r)
     (rootPredicateNode_ r) (lastUsedPredicateId_ r) (messageTarget_ r).
Definition set_failures_ v r :=
  mk (predicateId_ r) (predicateStackTail_ r) v (name_ r)
     (rootPredicateNode_ r) (lastUsedPredicateId_ r) (messageTarget_ r).
Definition set_name_ v r :=
  mk (predicateId_ r) (predicateStackTail_ r) (failures_ r) v
     (rootPredicateNode_ r) (lastUsedPredicateId_ r) (messageTarget_ r).
Definition set_rootPredicateNode_ v r :=
  mk (predicateId_ r) (predicateStackTail_ r) (failures_ r) (name_ r)
     v (lastUsedPredicateId_ r) (messageTarget_ r).
Definition set_lastUsedPredicateId_ v r :=
  mk (predicateId_ r) (predicateStackTail_ r) (failures_ r) (name_ r)
     (rootPredicateNode_ r) v (messageTarget_ r).
Definition set_messageTarget_ v r :=
  mk (predicateId_ r) (predicateStackTail_ r) (failures_ r) (name_ r)
     (rootPredicateNode_ r) (lastUsedPredicateId_ r) v.
End TestResult.

Import TestResult.

(** ** Text *)

Definition LF : string := String "010"%char "".

(** What [printf("%s", s.c_str())] prints of a [std::string]: its characters
    before the first NUL. *)
Fixpoint c_str (s : string) : string :=
  match s with
  | "" => ""
  | String c s' => if decide (c = "000"%char) then "" else String c (c_str s')
  end.

(** [std::string(n, ch)] *)
Fixpoint string_fill (n : nat) (ch : ascii) : string :=
  match n with
  | O => ""
  | S n' => String ch (string_fill n' ch)
  end.

(** [text.find(ch, pos)], [None] standing for [npos]. *)
Fixpoint find (ch : ascii) (pos : nat) (text : string) : option nat :=
  match text with
  | "" => None
  | String c text' =>
      match pos with
      | O => if decide (c = ch) then Some O else S <$> find ch O text'
      | S pos' => S <$> find ch pos' text'
      end
  end.

(** [text.substr(pos, len)] *)
Definition substr (pos len : nat) (text : string) : string :=
  String.substring pos len text.

(** ** Memory *)

(** The objects the member functions of one [TestResult] touch: the result
    itself ([self], which embeds the root node and owns the failures) and the
    predicate frames the callers linked into its chain ([frames]). *)
Record Mem : Type := mkMem {
  frames : gmap addr PredicateContext.t;
  self : TestResult.t
}.

Definition on_self (f : TestResult.t → TestResult.t) (m : Mem) : Mem :=
  mkMem (frames m) (f (self m)).

(** Reading [*p]. *)
Definition load (p : option NodePtr) (m : Mem) : outcome PredicateContext.t :=
  match p with
  | None => Undefined
  | Some Root => Done (rootPredicateNode_ (self m))
  | Some (Frame a) =>
      match frames m !! a with
      | Some c => Done c
      | None => Undefined
      end
  end.

(** Writing one field of [*p], for a [p] that was just read. *)
Definition poke (p : NodePtr) (f : PredicateContext.t → PredicateContext.t)
    (m : Mem) : Mem :=
  match p with
  | Root => on_self (λ r, set_rootPredicateNode_ (f (rootPredicateNode_ r)) r) m
  | Frame a => mkMem (alter f a (frames m)) (self m)
  end.

(** [&(failures_.back())] *)
Definition back_ptr (r : TestResult.t) : option FailurePtr :=
  Some (Nat.pred (length (failures_ r))).

(** ** TestResult::TestResult *)

(** The constructor sets [id_] and [next_] of the root node and points the
    tail at it.  The root's remaining fields are left indeterminate by the
    source; no member function reads them, and they are null here. *)
Definition TestResult_new : TestResult.t :=
  TestResult.mk 1 (Some Root) [] ""
    (PredicateContext.mk 0 None 0 None None None) 0 None.

(** ** TestResult::setTestName *)
Definition setTestName (name : string) (r : TestResult.t) : TestResult.t :=
  set_name_ name r.

(** ** TestResult::addFailureInfo *)

(** [failure.expr_ = expr] copies the characters before the terminating
    NUL. *)
Definition addFailureInfo (file : option string) (line : N)
    (expr : option string) (nestingLevel : N) (r : TestResult.t)
    : TestResult.t :=
  let failure :=
    Failure.mk file line
      (match expr with Some e => c_str e | None => "" end) "" nestingLevel in
  set_failures_ (failures_ r ++ [failure]) r.

(** ** TestResult::addFailure *)

(** The [for] loop over the chain; [fuel] bounds its iterations.  Only the
    [failure_] field of the visited node is written, so its [next_] is the
    one read at the top of the iteration. *)
Fixpoint addFailure_walk (fuel : nat) (lastNode : option NodePtr)
    (nestingLevel : N) (m : Mem) : outcome (N * Mem) :=
  match lastNode with
  | None => Done (nestingLevel, m)
  | Some p =>
      match fuel with
      | O => OutOfFuel
      | S fuel' =>
          node ← load lastNode m;
          let m1 :=
            if lastUsedPredicateId_ (self m) <? PredicateContext.id_ node
            then
              let m' := on_self (set_lastUsedPredicateId_
                                   (PredicateContext.id_ node)) m in
              let m' := on_self (addFailureInfo
                                   (PredicateContext.file_ node)
                                   (PredicateContext.line_ node)
                                   (PredicateContext.expr_ node)
                                   nestingLevel) m' in
              poke p (PredicateContext.set_failure_ (back_ptr (self m'))) m'
            else m in
          addFailure_walk fuel' (PredicateContext.next_ node)
            (wrap32 (nestingLevel + 1)) m1
      end
  end.

Definition addFailure (fuel : nat) (file : option string) (line : N)
    (expr : option string) (m : Mem) : outcome Mem :=
  '(nestingLevel, m1) ←
    addFailure_walk fuel
      (PredicateContext.next_ (rootPredicateNode_ (self m))) 0 m;
  let m2 := on_self (addFailureInfo file line expr nestingLevel) m1 in
  Done (on_self (set_messageTarget_ (back_ptr (self m2))) m2).

(** ** TestResult::popPredicateContext *)

(** The [while] loop that looks for the node before the tail. *)
Fixpoint popPredicateContext_walk (fuel : nat) (lastNode : NodePtr) (m : Mem)
    {struct fuel} : outcome NodePtr :=
  node ← load (Some lastNode) m;
  match PredicateContext.next_ node with
  | None => Done lastNode
  | Some q =>
      node' ← load (Some q) m;
      match PredicateContext.next_ node' with
      | None => Done lastNode
      | Some _ =>
          match fuel with
          | O => OutOfFuel
          | S fuel' => popPredicateContext_walk fuel' q m
          end
      end
  end.

Definition popPredicateContext (fuel : nat) (m : Mem) : outcome Mem :=
  lastNode ← popPredicateContext_walk fuel Root m;
  node ← load (Some lastNode) m;
  let tail := PredicateContext.next_ node in
  m1 ← match tail with
       | None => Done m
       | Some _ =>
           tnode ← load tail m;
           match PredicateContext.failure_ tnode with
           | Some f => Done (on_self (set_messageTarget_ (Some f)) m)
           | None => Done m
           end
       end;
  let m2 := on_self (set_predicateStackTail_ (Some lastNode)) m1 in
  Done (poke lastNode (PredicateContext.set_next_ None) m2).

(** ** TestResult::failed *)

(** [std::deque::empty] *)
Definition empty {A : Type} (d : list A) : bool :=
  match d with
  | [] => true
  | _ :: _ => false
  end.

Definition failed (r : TestResult.t) : bool := negb (empty (failures_ r)).

(** ** TestResult::addToLastFailure *)
Definition addToLastFailure (message : string) (r : TestResult.t)
    : outcome TestResult.t :=
  match messageTarget_ r with
  | None => Done r
  | Some i =>
      match failures_ r !! i with
      | Some f =>
          Done (set_failures_
                  (<[i := Failure.set_message_
                            (Failure.message_ f +:+ message) f]>
                     (failures_ r)) r)
      | None => Undefined
      end
  end.

(** ** TestResult::operator<< *)

(** The formatting state of a [std::ostream] that the generic overload sets:
    the precision and the float field. *)
Inductive floatfield : Type :=
  | ff_default | ff_fixed | ff_scientific | ff_hexfloat.

Record ios_fmt : Type := mk_ios_fmt {
  precision : Z;
  float_field : floatfield
}.

(** A freshly constructed [std::stringstream]. *)
Definition ios_init : ios_fmt := mk_ios_fmt 6 ff_default.
Definition setprecision (n : Z) (s : ios_fmt) : ios_fmt :=
  mk_ios_fmt n (float_field s).
Definition hexfloat (s : ios_fmt) : ios_fmt :=
  mk_ios_fmt (precision s) ff_hexfloat.

(** "Anything ostream can deal with": the text [oss << value] writes under a
    formatting state. *)
Class OStreamable (T : Type) : Type :=
  ostream_insert : ios_fmt → T → string.

Definition shl_generic {T : Type} `{OStreamable T} (value : T)
    (r : TestResult.t) : outcome TestResult.t :=
  let oss := hexfloat (setprecision 16 ios_init) in
  addToLastFailure (ostream_insert oss value) r.

(** [std::to_string] of a 64-bit integer is its decimal text. *)
Definition shl_int64 (value : Z) (r : TestResult.t) : outcome TestResult.t :=
  addToLastFailure (pretty value) r.

Definition shl_uint64 (value : N) (r : TestResult.t) : outcome TestResult.t :=
  addToLastFailure (pretty value) r.

Definition shl_bool (value : bool) (r : TestResult.t) : outcome TestResult.t :=
  addToLastFailure (if value then "true" else "false") r.

(** ** JSONTEST_ASSERT_PRED *)

(** The statements of the macro before [(expr)]: a frame local to the
    caller, at address [a], is linked behind the tail. *)
Definition pushPredicateContext (a : addr) (file : string) (line : N)
    (expr : string) (m : Mem) : outcome Mem :=
  let ctx :=
    PredicateContext.mk (predicateId_ (self m)) (Some file) line (Some expr)
      None None in
  let m1 := mkMem (<[a := ctx]> (frames m)) (self m) in
  match predicateStackTail_ (self m1) with
  | None => Undefined
  | Some tail =>
      _ ← load (Some tail) m1;
      let m2 := poke tail (PredicateContext.set_next_ (Some (Frame a))) m1 in
      let m3 := on_self (λ r, set_predicateId_
                                (wrap32 (predicateId_ r + 1)) r) m2 in
      Done (on_self (set_predicateStackTail_ (Some (Frame a))) m3)
  end.

(** The whole macro around a body [expr]; the local frame dies with the
    block. *)
Definition JSONTEST_ASSERT_PRED (fuel : nat) (a : addr) (file : string)
    (line : N) (text : string) (expr : Mem → outcome Mem) (m : Mem)
    : outcome Mem :=
  m1 ← pushPredicateContext a file line text m;
  m2 ← expr m1;
  m3 ← popPredicateContext fuel m2;
  Done (mkMem (delete a (frames m3)) (self m3)).

(** ** TestResult::indentText *)
Fixpoint indentText_loop (fuel : nat) (text indent : string)
    (lastIndex : nat) (reindented : string) : outcome string :=
  if decide (lastIndex < String.length text)%nat then
    match fuel with
    | O => OutOfFuel
    | S fuel' =>
        let nextIndex :=
          match find "010"%char lastIndex text with
          | Some i => i
          | None => (String.length text - 1)%nat
          end in
        let reindented := reindented +:+ indent in
        let reindented :=
          reindented +:+ substr lastIndex (nextIndex - lastIndex + 1) text in
        indentText_loop fuel' text indent (nextIndex + 1)%nat reindented
    end
  else Done reindented.

(** Every iteration moves [lastIndex] forward, so [text.size()] bounds the
    number of iterations. *)
Definition indentText (text indent : string) : outcome string :=
  indentText_loop (String.length text) text indent O "".

(** ** TestResult::printFailure *)

(** Standard output is the text written so far; [printf] appends to it. *)
Definition Stdout := string.

(** [indent] of the loop body: [nestingLevel_ * 2] is computed in
    [unsigned int]. *)
Definition indent_of (failure : Failure.t) : string :=
  string_fill (N.to_nat (wrap32 (Failure.nestingLevel_ failure * 2))) " ".

(** The body of the range-[for] loop. *)
Definition printFailure_body (out : Stdout) (failure : Failure.t)
    : outcome Stdout :=
  let indent := indent_of failure in
  let out :=
    match Failure.file_ failure with
    | Some file =>
        out +:+ indent +:+ c_str file +:+ "(" +:+
          pretty (Failure.line_ failure) +:+ "): "
    | None => out
    end in
  let out :=
    if negb (String.eqb (Failure.expr_ failure) "") then
      out +:+ c_str (Failure.expr_ failure) +:+ LF
    else
      match Failure.file_ failure with
      | Some _ => out +:+ LF
      | None => out
      end in
  if negb (String.eqb (Failure.message_ failure) "") then
    reindented ← indentText (Failure.message_ failure) (indent +:+ "  ");
    Done (out +:+ c_str reindented +:+ LF)
  else Done out.

Fixpoint printFailure_loop (failures : list Failure.t) (out : Stdout)
    : outcome Stdout :=
  match failures with
  | [] => Done out
  | failure :: rest =>
      out' ← printFailure_body out failure;
      printFailure_loop rest out'
  end.

Definition printFailure (printTestName : bool) (r : TestResult.t)
    (out : Stdout) : outcome Stdout :=
  if empty (failures_ r) then Done out
  else
    let out :=
      if printTestName then
        out +:+ "* Detail of " +:+ c_str (name_ r) +:+ " test failure:" +:+ LF
      else out in
    printFailure_loop (failures_ r) out.

(** ** class TestCase *)

(** A test case is its two virtual functions.  [runTestCase] works on the
    bound [TestResult] and may print; it may also fail to return. *)
Record TestCase : Type := mkTestCase {
  testName : string;
  runTestCase : TestResult.t → Stdout → outcome (TestResult.t * Stdout)
}.

(** [TestCase::run] *)
Definition run (test : TestCase) (result : TestResult.t) (out : Stdout)
    : outcome (TestResult.t * Stdout) :=
  runTestCase test result out.

(** ** class Runner *)

(** A factory returns a new instance of its test case on every call. *)
Record Runner : Type := mkRunner {
  tests_ : list TestCase
}.

Definition Runner_new : Runner := mkRunner [].

Definition add (factory : TestCase) (rn : Runner) : Runner :=
  mkRunner (tests_ rn ++ [factory]).

Definition testCount (rn : Runner) : nat := length (tests_ rn).

(** [Runner::runTestAt], compiled without [JSON_USE_EXCEPTION]. *)
Definition runTestAt (rn : Runner) (index : nat) (result : TestResult.t)
    (out : Stdout) : outcome (TestResult.t * Stdout) :=
  match tests_ rn !! index with
  | None => Undefined
  | Some test =>
      let result := setTestName (c_str (testName test)) result in
      let out := out +:+ "Testing " +:+ c_str (testName test) +:+ ": " in
      '(result, out) ← run test result out;
      let status := if failed result then "FAILED" else "OK" in
      Done (result, out +:+ status +:+ LF)
  end.

(** The first loop of [runAllTest], with [todo] iterations left. *)
Fixpoint runAllTest_loop (rn : Runner) (todo index : nat)
    (failures : list TestResult.t) (out : Stdout)
    : outcome (list TestResult.t * Stdout) :=
  match todo with
  | O => Done (failures, out)
  | S todo' =>
      let result := TestResult_new in
      '(result, out) ← runTestAt rn index result out;
      let failures :=
        if failed result then failures ++ [result] else failures in
      runAllTest_loop rn todo' (S index) failures out
  end.

(** The second loop of [runAllTest]. *)
Fixpoint runAllTest_report (printTestName : bool)
    (failures : list TestResult.t) (out : Stdout) : outcome Stdout :=
  match failures with
  | [] => Done out
  | result :: rest =>
      out' ← printFailure printTestName result out;
      runAllTest_report printTestName rest out'
  end.

(** [Runner::runAllTest]: the returned flag and what was printed. *)
Definition runAllTest (printSummary : bool) (rn : Runner) (out : Stdout)
    : outcome (bool * Stdout) :=
  let count := testCount rn in
  '(failures, out) ← runAllTest_loop rn count O [] out;
  if empty failures then
    let out :=
      if printSummary then
        out +:+ "All " +:+ pretty (N.of_nat count) +:+ " tests passed" +:+ LF
      else out in
    Done (true, out)
  else
    out ← runAllTest_report (bool_decide (1 < count)%nat) failures out;
    let out :=
      if printSummary then
        let failedCount := length failures in
        let passedCount := (count - failedCount)%nat in
        out +:+ pretty (N.of_nat passedCount) +:+ "/" +:+
          pretty (N.of_nat count) +:+ " tests passed (" +:+
          pretty (N.of_nat failedCount) +:+ " failure(s))" +:+ LF
      else out in
    Done (false, out).

(** * Predicate chains in memory *)

(** [chain h p l]: following [next_] from the pointer [p] through the
    frames of [h] visits exactly the frames [l] (address and content, in
    order) and ends at the null pointer. *)
Fixpoint chain (h : gmap addr PredicateContext.t) (p : option NodePtr)
    (l : list (addr * PredicateContext.t)) : Prop :=
  match l with
  | [] => p = None
  | (a, c) :: l' =>
      p = Some (Frame a) ∧ h !! a = Some c ∧
      chain h (PredicateContext.next_ c) l'
  end.

(** The pointer to the last node of a chain that starts behind [p]. *)
Definition last_node (p : NodePtr) (l : list (addr * PredicateContext.t))
    : NodePtr :=
  match last l with
  | Some (b, _) => Frame b
  | None => p
  end.

(** The chain that is left when its last frame gets a null [next_]. *)
Fixpoint seal_last (l : list (addr * PredicateContext.t))
    : list (addr * PredicateContext.t) :=
  match l with
  | [] => []
  | (b, cb) :: l' =>
      match l' with
      | [] => [(b, PredicateContext.set_next_ None cb)]
      | _ :: _ => (b, cb) :: seal_last l'
      end
  end.

(** The Failure Record made from a frame. *)
Definition frame_record (c : PredicateContext.t) (nestingLevel : N)
    : Failure.t :=
  Failure.mk (PredicateContext.file_ c) (PredicateContext.line_ c)
    (match PredicateContext.expr_ c with Some e => c_str e | None => "" end)
    "" nestingLevel.

(** The Failure Record made from the failing assertion itself. *)
Definition assertion_record (file : option string) (line : N)
    (expr : option string) (nestingLevel : N) : Failure.t :=
  Failure.mk file line (match expr with Some e => c_str e | None => "" end)
    "" nestingLevel.

(** The nesting level after [k] more frames. *)
Fixpoint level_after (lvl : N) (k : nat) : N :=
  match k with
  | O => lvl
  | S k' => level_after (wrap32 (lvl + 1)) k'
  end.

(** What one walk of [addFailure] over the frames [l] does, read off the
    list: the records it appends, given the watermark [w] and the level
    [lvl] ... *)
Fixpoint new_records (w lvl : N) (l : list (addr * PredicateContext.t))
    : list Failure.t :=
  match l with
  | [] => []
  | (_, c) :: l' =>
      if w <? PredicateContext.id_ c
      then frame_record c lvl ::
           new_records (PredicateContext.id_ c) (wrap32 (lvl + 1)) l'
      else new_records w (wrap32 (lvl + 1)) l'
  end.

(** ... the watermark it leaves ... *)
Fixpoint new_watermark (w : N) (l : list (addr * PredicateContext.t)) : N :=
  match l with
  | [] => w
  | (_, c) :: l' =>
      if w <? PredicateContext.id_ c
      then new_watermark (PredicateContext.id_ c) l'
      else new_watermark w l'
  end.

(** ... and the frames as it leaves them, [n] being the number of records
    before the walk. *)
Fixpoint relinked (w : N) (n : nat) (l : list (addr * PredicateContext.t))
    : list (addr * PredicateContext.t) :=
  match l with
  | [] => []
  | (a, c) :: l' =>
      if w <? PredicateContext.id_ c
      then (a, PredicateContext.set_failure_ (Some n) c) ::
           relinked (PredicateContext.id_ c) (S n) l'
      else (a, c) :: relinked w n l'
  end.

(** No frame of the chain was reported yet: the ids grow along the chain,
    starting above the watermark [w]. *)
Fixpoint fresh (w : N) (l : list (addr * PredicateContext.t)) : Prop :=
  match l with
  | [] => True
  | (_, c) :: l' => w < PredicateContext.id_ c ∧ fresh (PredicateContext.id_ c) l'
  end.

(** Every id of the chain is a value of [unsigned int]. *)
Definition ids_in_range (l : list (addr * PredicateContext.t)) : Prop :=
  Forall (λ e, PredicateContext.id_ e.2 < UINT_MODULUS) l.

(** The records of a chain all of whose frames are reported, from level
    [lvl] on. *)
Fixpoint ancestry (lvl : N) (l : list (addr * PredicateContext.t))
    : list Failure.t :=
  match l with
  | [] => []
  | (_, c) :: l' => frame_record c lvl :: ancestry (wrap32 (lvl + 1)) l'
  end.

(** * Sample states *)

(** Two nested predicate assertions, entered on a new [TestResult] with
    their frames at the addresses 100 and 200. *)
Definition sample_outer : PredicateContext.t :=
  PredicateContext.mk 1 (Some "t.cpp") 10 (Some "outer()")
    (Some (Frame 200)) None.
Definition sample_inner : PredicateContext.t :=
  PredicateContext.mk 2 (Some "t.cpp") 20 (Some "inner()") None None.
Definition sample_mem : Mem :=
  mkMem (<[100 := sample_outer]> (<[200 := sample_inner]> ∅))
    (TestResult.mk 3 (Some (Frame 200)) [] ""
       (PredicateContext.mk 0 None 0 None (Some (Frame 100)) None) 0 None).
Definition sample_chain : list (addr * PredicateContext.t) :=
  [(100, sample_outer); (200, sample_inner)].

(** The sample state after an assertion failed inside the inner predicate:
    both frames were reported and linked to their records. *)
Definition sample_outer_linked : PredicateContext.t :=
  PredicateContext.set_failure_ (Some 0%nat) sample_outer.
Definition sample_inner_linked : PredicateContext.t :=
  PredicateContext.set_failure_ (Some 1%nat) sample_inner.
Definition sample_failed : Mem :=
  mkMem (<[100 := sample_outer_linked]> (<[200 := sample_inner_linked]> ∅))
    (TestResult.mk 3 (Some (Frame 200))
       [frame_record sample_outer 0; frame_record sample_inner 1;
        assertion_record (Some "t.cpp") 30 (Some "x == y") 2]
       ""
       (PredicateContext.mk 0 None 0 None (Some (Frame 100)) None)
       2 (Some 2%nat)).

(** * A floating-point value in the generic operator *)

(** The [double] value 1.0, and what [operator<<(std::ostream&, double)]
    writes for it: by [std::num_put] the [printf] conversion [%.*g],
    [%.*f], [%.*e] or, under [hexfloat], [%a]; a negative precision counts
    as the default 6. *)
Inductive double_one : Type := dbl_1_0.

#[global] Instance double_one_ostreamable : OStreamable double_one :=
  λ fmt _,
    let p := if (precision fmt <? 0)%Z then 6%Z else precision fmt in
    let frac :=
      if (p =? 0)%Z then "" else "." +:+ string_fill (Z.to_nat p) "0" in
    match float_field fmt with
    | ff_default => "1"
    | ff_fixed => "1" +:+ frac
    | ff_scientific => "1" +:+ frac +:+ "e+00"
    | ff_hexfloat => "0x1p+0"
    end.

(** [std::string] and string literals are written as they are, whatever the
    precision and the float field. *)
#[global] Instance string_ostreamable : OStreamable string := λ _ s, s.

(** A result whose message target is its only record. *)
Definition sample_result : TestResult.t :=
  TestResult.mk 1 (Some Root)
    [assertion_record (Some "t.cpp") 7 (Some "a == b") 0] ""
    (PredicateContext.mk 0 None 0 None None None) 0 (Some 0%nat).

(** * Sequences of operations *)

(** The operations that act on a [TestResult]: its non-const member
    functions and the entry of a predicate assertion. *)
Inductive Operation : Type :=
  | op_setTestName (name : string)
  | op_addFailure (file : option string) (line : N) (expr : option string)
  | op_pushPredicateContext (a : addr) (file : string) (line : N)
      (expr : string)
  | op_popPredicateContext
  | op_addToLastFailure (message : string)
  | op_shl_int64 (value : Z)
  | op_shl_uint64 (value : N)
  | op_shl_bool (value : bool)
  | op_shl_generic {T : Type} `{OStreamable T} (value : T).

(** A member function that touches the result only. *)
Definition on_result (f : TestResult.t → outcome TestResult.t) (m : Mem)
    : outcome Mem :=
  r ← f (self m); Done (mkMem (frames m) r).

Definition step (fuel : nat) (o : Operation) (m : Mem) : outcome Mem :=
  match o with
  | op_setTestName name => Done (on_self (setTestName name) m)
  | op_addFailure file line expr => addFailure fuel file line expr m
  | op_pushPredicateContext a file line expr =>
      pushPredicateContext a file line expr m
  | op_popPredicateContext => popPredicateContext fuel m
  | op_addToLastFailure message => on_result (addToLastFailure message) m
  | op_shl_int64 value => on_result (shl_int64 value) m
  | op_shl_uint64 value => on_result (shl_uint64 value) m
  | op_shl_bool value => on_result (shl_bool value) m
  | op_shl_generic value => on_result (shl_generic value) m
  end.

Fixpoint run_ops (fuel : nat) (ops : list Operation) (m : Mem)
    : outcome Mem :=
  match ops with
  | [] => Done m
  | o :: ops' => m' ← step fuel o m; run_ops fuel ops' m'
  end.

(** A test body: two nested predicate assertions, a failure in the inner
    one with a message, the return to the outer one and a failure there. *)
Definition sample_ops : list Operation :=
  [op_pushPredicateContext 100 "t.cpp" 10 "outer()";
   op_pushPredicateContext 200 "t.cpp" 20 "inner()";
   op_addFailure (Some "t.cpp") 30 (Some "x == y");
   op_shl_int64 (-1);
   op_popPredicateContext;
   op_addToLastFailure "after inner()";
   op_addFailure (Some "t.cpp") 11 (Some "done");
   op_popPredicateContext].

(** * Printing, in the words of the specification *)

(** The text without its first [n] characters. *)
Fixpoint string_drop (n : nat) (s : string) : string :=
  match n, s with
  | O, _ => s
  | S _, "" => ""
  | S n', String _ s' => string_drop n' s'
  end.

(** The specification's re-indented message: every line of [text] receives
    [indent], which is put before the first character and before each
    character that follows a line feed. *)
Fixpoint spec_indent_lines (indent : string) (at_line_start : bool)
    (text : string) : string :=
  match text with
  | "" => ""
  | String c text' =>
      (if at_line_start then indent else "") +:+
      String c (spec_indent_lines indent (bool_decide (c = "010"%char)) text')
  end.

(** The specification's rendering of one Failure Record:
    ["<indent><file>(<line>): "] when a source location is present, then
    the expression text (or a bare line feed if only a location exists),
    then the message with every line indented by two more spaces. *)
Definition spec_render_record (failure : Failure.t) : string :=
  let indent := indent_of failure in
  (match Failure.file_ failure with
   | Some file =>
       indent +:+ c_str file +:+ "(" +:+ pretty (Failure.line_ failure) +:+
         "): "
   | None => ""
   end) +:+
  (if String.eqb (Failure.expr_ failure) "" then
     match Failure.file_ failure with Some _ => LF | None => "" end
   else c_str (Failure.expr_ failure) +:+ LF) +:+
  (if String.eqb (Failure.message_ failure) "" then ""
   else
     c_str (spec_indent_lines (indent +:+ "  ") true (Failure.message_ failure))
       +:+ LF).

Definition string_concat (l : list string) : string :=
  foldr String.append "" l.


(** A result with three records: a frame, a failure inside it that carries
    a two-line message, and a later top-level failure without location. *)
Definition sample_report : TestResult.t :=
  TestResult.mk 2 (Some Root)
    [Failure.mk (Some "t.cpp") 10 "check()" "" 0;
     Failure.mk (Some "t.cpp") 30 "x == y"
       ("Expected: 1" +:+ LF +:+ "Actual  : 2") 1;
     Failure.mk None 0 "late" "" 0]
    "Fix/case" (PredicateContext.mk 0 None 0 None None None) 1 (Some 2%nat).

(** * Nested predicate assertions *)

(** The chain after a frame at [a] was linked behind its last frame. *)
Fixpoint link_last (a : addr) (l : list (addr * PredicateContext.t))
    : list (addr * PredicateContext.t) :=
  match l with
  | [] => []
  | (b, cb) :: l' =>
      match l' with
      | [] => [(b, PredicateContext.set_next_ (Some (Frame a)) cb)]
      | _ :: _ => (b, cb) :: link_last a l'
      end
  end.

(** A predicate assertion in the test's text: the address its frame will
    have, and the file, line and expression text of the macro call. *)
Record Site : Type := mkSite {
  site_addr : addr;
  site_file : string;
  site_line : N;
  site_expr : string
}.

(** Entering predicate assertions one inside the other. *)
Fixpoint enter_all (sites : list Site) (m : Mem) : outcome Mem :=
  match sites with
  | [] => Done m
  | s :: rest =>
      m' ← pushPredicateContext (site_addr s) (site_file s) (site_line s)
             (site_expr s) m;
      enter_all rest m'
  end.

(** What identifies a frame apart from its links. *)
Definition frame_view (e : addr * PredicateContext.t)
    : addr * N * option string * N * option string :=
  (e.1, PredicateContext.id_ e.2, PredicateContext.file_ e.2,
   PredicateContext.line_ e.2, PredicateContext.expr_ e.2).

(** The frames that entering [sites] creates, the first with id [pid]. *)
Fixpoint site_views (pid : N) (sites : list Site)
    : list (addr * N * option string * N * option string) :=
  match sites with
  | [] => []
  | s :: rest =>
      (site_addr s, pid, Some (site_file s), site_line s,
       Some (site_expr s)) :: site_views (pid + 1) rest
  end.

(** The records of these frames, from level [lvl] on. *)
Fixpoint site_records (lvl : N) (sites : list Site) : list Failure.t :=
  match sites with
  | [] => []
  | s :: rest =>
      Failure.mk (Some (site_file s)) (site_line s) (c_str (site_expr s))
        "" lvl ::
      site_records (lvl + 1) rest
  end.

(** * The rest of the Runner *)

(** [Runner::testNameAt]: the name is copied into a [std::string]. *)
Definition testNameAt (rn : Runner) (index : nat) : outcome string :=
  match tests_ rn !! index with
  | None => Undefined
  | Some test => Done (c_str (testName test))
  end.

(** The loop of [Runner::testIndex], with [todo] iterations left; the
    reference parameter [indexOut] is returned with the flag. *)
Fixpoint testIndex_loop (rn : Runner) (testName : string)
    (todo index indexOut : nat) : outcome (bool * nat) :=
  match todo with
  | O => Done (false, indexOut)
  | S todo' =>
      name ← testNameAt rn index;
      if String.eqb name testName then Done (true, index)
      else testIndex_loop rn testName todo' (S index) indexOut
  end.

(** [Runner::testIndex] *)
Definition testIndex (testName : string) (indexOut : nat) (rn : Runner)
    : outcome (bool * nat) :=
  testIndex_loop rn testName (testCount rn) O indexOut.

(** * Assertions *)

(** [JSONTEST_ASSERT(expr)]: the failure is added in the [else] branch
    only, and a chained [<<] belongs to that branch. *)
Definition JSONTEST_ASSERT (fuel : nat) (expr : bool) (file : string)
    (line : N) (text : string) (chained : TestResult.t → outcome TestResult.t)
    (m : Mem) : outcome Mem :=
  if expr then Done m
  else
    m1 ← addFailure fuel (Some file) line (Some text) m;
    on_result chained m1.


(** * Invariants of the result *)

(** A [Failure*] is null or designates one of the first [n] records. *)
Definition ptr_ok (n : nat) (p : option FailurePtr) : Prop :=
  match p with
  | None => True
  | Some i => (i < n)%nat
  end.

(** The message target and the record link of every node designate
    existing records. *)
Definition links_ok (m : Mem) : Prop :=
  ptr_ok (length (failures_ (self m))) (messageTarget_ (self m)) ∧
  ptr_ok (length (failures_ (self m)))
    (PredicateContext.failure_ (rootPredicateNode_ (self m))) ∧
  ∀ a c, frames m !! a = Some c →
         ptr_ok (length (failures_ (self m))) (PredicateContext.failure_ c).

(** [f'] is the record [f], possibly with text appended to its message. *)
Definition extends (f f' : Failure.t) : Prop :=
  Failure.file_ f' = Failure.file_ f ∧
  Failure.line_ f' = Failure.line_ f ∧
  Failure.expr_ f' = Failure.expr_ f ∧
  Failure.nestingLevel_ f' = Failure.nestingLevel_ f ∧
  ∃ text, Failure.message_ f' = Failure.message_ f +:+ text.

(** [fs'] has the records of [fs] at the same places, possibly with longer
    messages, and possibly more records behind them. *)
Definition grows (fs fs' : list Failure.t) : Prop :=
  ∀ i f, fs !! i = Some f → ∃ f', fs' !! i = Some f' ∧ extends f f'.


(** The operations of a test body that only calls [addFailure], one per
    (file, line, expression). *)
Definition failure_ops (calls : list (option string * N * option string))
    : list Operation :=
  (λ c, op_addFailure c.1.1 c.1.2 c.2) <$> calls.



(** * Tests as the Runner sees them *)

(** The result a test starts on under [runAllTest]: a new one that carries
    the test's name. *)
Definition started (test : TestCase) : TestResult.t :=
  setTestName (c_str (testName test)) TestResult_new.

(** Run by the Runner, the body of the test returns, whatever was printed
    before. *)
Definition returns (test : TestCase) : Prop :=
  ∀ out, ∃ r' out', runTestCase test (started test) out = Done (r', out').

(** Run by the Runner, the body returns and has recorded no failure. *)
Definition passes (test : TestCase) : Prop :=
  ∀ out, ∃ r' out',
    runTestCase test (started test) out = Done (r', out') ∧
    failures_ r' = [].

(** Run by the Runner, the body leaves a failure whenever it returns. *)
Definition fails (test : TestCase) : Prop :=
  ∀ out r' out',
    runTestCase test (started test) out = Done (r', out') →
    failures_ r' ≠ [].

(** The summary line for [failedCount] failures among [count] tests. *)
Definition failure_summary (count failedCount : nat) : string :=
  pretty (N.of_nat (count - failedCount)) +:+ "/" +:+
  pretty (N.of_nat count) +:+ " tests passed (" +:+
  pretty (N.of_nat failedCount) +:+ " failure(s))" +:+ LF.

(** A test that passes and one that fails an assertion with a message. *)
Definition sample_passing : TestCase :=
  mkTestCase "Fix/one" (λ r out, Done (r, out)).
Definition sample_failing : TestCase :=
  mkTestCase "Fix/two"
    (λ r out,
       m ← addFailure 0 (Some "a.cpp") 3 (Some "1 == 2") (mkMem ∅ r);
       r' ← shl_int64 (-5) (self m);
       Done (r', out)).


(** * The id counter *)

(** The number of predicate assertions entered by a sequence of
    operations. *)
Fixpoint pushes (ops : list Operation) : nat :=
  match ops with
  | [] => O
  | op_pushPredicateContext _ _ _ _ :: ops' => S (pushes ops')
  | _ :: ops' => pushes ops'
  end.

(** The watermark and the id of every node are below the id counter. *)
Definition ids_below_counter (m : Mem) : Prop :=
  lastUsedPredicateId_ (self m) < predicateId_ (self m) ∧
  PredicateContext.id_ (rootPredicateNode_ (self m)) < predicateId_ (self m) ∧
  ∀ a c, frames m !! a = Some c →
         PredicateContext.id_ c < predicateId_ (self m).



(** * The id counter at its limit *)

(** A new result on which [2^32 - 2] predicate assertions were entered and
    left without a failure: the id counter is at the last value of
    [unsigned int]. *)
Definition counter_at_limit : Mem :=
  mkMem ∅ (set_predicateId_ (UINT_MODULUS - 1) TestResult_new).

(** Two nested predicate assertions entered from there: the outer frame has
    the last id, the counter wraps, and the inner frame has id 0. *)
Definition wrapped_outer : PredicateContext.t :=
  PredicateContext.mk 4294967295 (Some "t.cpp") 10 (Some "outer()")
    (Some (Frame 200)) None.
Definition wrapped_inner : PredicateContext.t :=
  PredicateContext.mk 0 (Some "t.cpp") 20 (Some "inner()") None None.
Definition wrapped_mem : Mem :=
  mkMem (<[100 := wrapped_outer]> (<[200 := wrapped_inner]> ∅))
    (TestResult.mk 1 (Some (Frame 200)) [] ""
       (PredicateContext.mk 0 None 0 None (Some (Frame 100)) None) 0 None).


(** * Properties of chains *)

Lemma chain_functional h p l1 l2 : chain h p l1 → chain h p l2 → l1 = l2.
Proof.
  revert p l2. induction l1 as [|[a c] l1 IH]; intros p [|[a' c'] l2]; simpl.
  - done.
  - intros -> (? & _); discriminate.
  - intros (-> & _) ?; discriminate.
  - intros (-> & Ha & Hl1) (Heq & Ha' & Hl2).
    injection Heq as <-. rewrite Ha in Ha'. injection Ha' as <-.
    f_equal. eauto.
Qed.

Lemma chain_app_inv h p l1 l2 :
  chain h p (l1 ++ l2) →
  ∃ q, chain h q l2 ∧
       match last l1 with
       | Some (b, cb) => h !! b = Some cb ∧ PredicateContext.next_ cb = q
       | None => q = p
       end.
Proof.
  revert p. induction l1 as [|[a c] l1 IH]; intros p Hch.
  - exists p. by split.
  - destruct Hch as (-> & Ha & Hl). destruct (IH _ Hl) as (q & Hq & Hlast).
    exists q. split; [done|].
    destruct l1 as [|e l1].
    + rewrite last_singleton. rewrite last_nil in Hlast. subst q.
      simpl. by split.
    + rewrite last_cons_cons.
      destruct (last (e :: l1)) as [[b cb]|] eqn:E; [done|].
      by apply last_None in E.
Qed.

Lemma chain_suffix h p l a c :
  chain h p l → (a, c) ∈ l →
  ∃ l1 l2, l = l1 ++ (a, c) :: l2 ∧ chain h (Some (Frame a)) ((a, c) :: l2).
Proof.
  revert p. induction l as [|[b cb] l IH]; intros p Hch Hin.
  - by apply elem_of_nil in Hin.
  - destruct Hch as (-> & Hb & Hl).
    apply elem_of_cons in Hin as [[= <- <-]|Hin].
    + exists [], l. by repeat split.
    + destruct (IH _ Hl Hin) as (l1 & l2 & -> & Hch).
      exists ((b, cb) :: l1), l2. by split.
Qed.

(** A chain that ends at null visits no address twice. *)
Lemma chain_NoDup h p l : chain h p l → NoDup l.*1.
Proof.
  revert p. induction l as [|[a c] l IH]; intros p Hch; simpl.
  - constructor.
  - pose proof Hch as (-> & Ha & Hl).
    constructor; [|by eapply IH].
    intros Hin. apply list_elem_of_fmap in Hin as ([a' c'] & Heq & Hin).
    simpl in Heq; subst a'.
    destruct (chain_suffix _ _ _ _ _ Hl Hin) as (l1 & l2 & Hsplit & Hch').
    pose proof (chain_functional _ _ _ _ Hch Hch') as Heq.
    apply (f_equal length) in Heq. rewrite Hsplit in Heq.
    simpl in Heq. rewrite length_app in Heq. simpl in Heq. lia.
Qed.

(** Writing to a frame outside the chain keeps the chain. *)
Lemma chain_alter_outside h p l a f :
  a ∉ l.*1 → chain h p l → chain (alter f a h) p l.
Proof.
  revert p. induction l as [|[b cb] l IH]; intros p Hnin; simpl; [done|].
  intros (-> & Hb & Hl). simpl in Hnin.
  apply not_elem_of_cons in Hnin as [Hne Hnin].
  split; [done|]. split; [|by apply IH].
  by rewrite lookup_alter_ne.
Qed.

Lemma seal_last_snoc l b cb :
  seal_last (l ++ [(b, cb)]) = l ++ [(b, PredicateContext.set_next_ None cb)].
Proof.
  induction l as [|[a c] l IH]; simpl; [done|].
  rewrite IH. by destruct l.
Qed.

Lemma seal_last_fst l : (seal_last l).*1 = l.*1.
Proof.
  induction l as [|[a c] l IH]; [done|].
  destruct l as [|e l]; [done|].
  change (seal_last ((a, c) :: e :: l)) with ((a, c) :: seal_last (e :: l)).
  rewrite !fmap_cons. rewrite fmap_cons in IH. by rewrite IH.
Qed.

(** Cutting a chain behind one of its frames. *)
Lemma chain_cut h p l1 b cb l2 :
  chain h p (l1 ++ (b, cb) :: l2) →
  chain (alter (PredicateContext.set_next_ None) b h) p
    (l1 ++ [(b, PredicateContext.set_next_ None cb)]).
Proof.
  intros Hch. pose proof (chain_NoDup _ _ _ Hch) as Hnd.
  revert p Hch Hnd. induction l1 as [|[a c] l1 IH]; intros p; simpl.
  - intros (-> & Hb & _) _. split; [done|]. split; [|done].
    by rewrite lookup_alter_eq, Hb.
  - intros (-> & Ha & Hl) Hnd. apply NoDup_cons in Hnd as [Hnin Hnd].
    split; [done|]. split; [|by apply IH].
    rewrite lookup_alter_ne; [done|].
    intros ->. apply Hnin. rewrite fmap_app. simpl.
    apply elem_of_app. right. apply elem_of_cons. by left.
Qed.

(** * addFailure over a chain *)

Lemma relinked_fst w n l : (relinked w n l).*1 = l.*1.
Proof.
  revert w n. induction l as [|[a c] l IH]; intros w n; simpl; [done|].
  destruct (w <? PredicateContext.id_ c); simpl; by rewrite IH.
Qed.

(** The walk of [addFailure] over a chain in memory does what
    [new_records], [new_watermark] and [relinked] say, and touches no
    frame outside the chain. *)
Lemma addFailure_walk_chain l : ∀ fuel p lvl m,
  chain (frames m) p l → (length l ≤ fuel)%nat →
  ∃ h',
    addFailure_walk fuel p lvl m =
      Done (level_after lvl (length l),
            mkMem h'
              (set_lastUsedPredicateId_
                 (new_watermark (lastUsedPredicateId_ (self m)) l)
                 (set_failures_
                    (failures_ (self m) ++
                       new_records (lastUsedPredicateId_ (self m)) lvl l)
                    (self m)))) ∧
    chain h' p
      (relinked (lastUsedPredicateId_ (self m))
         (length (failures_ (self m))) l) ∧
    ∀ a, a ∉ l.*1 → h' !! a = frames m !! a.
Proof.
  induction l as [|[a c] l IH]; intros fuel p lvl [h r] Hch Hfuel.
  - simpl in Hch. subst p. exists h.
    destruct r, fuel; simpl; rewrite app_nil_r; auto.
  - destruct Hch as (-> & Ha & Hl). simpl in Ha, Hl.
    destruct fuel as [|fuel]; [simpl in Hfuel; lia|].
    assert (Hnd : a ∉ l.*1).
    { assert (Hc : chain h (Some (Frame a)) ((a, c) :: l)) by by repeat split.
      apply chain_NoDup in Hc. by apply NoDup_cons in Hc as [? _]. }
    simpl. rewrite Ha. simpl.
    destruct (lastUsedPredicateId_ r <? PredicateContext.id_ c) eqn:Hnew.
    + edestruct (IH fuel (PredicateContext.next_ c) (wrap32 (lvl + 1))
                   (mkMem
                      (alter (PredicateContext.set_failure_
                                (Some (length (failures_ r)))) a h)
                      (addFailureInfo (PredicateContext.file_ c)
                         (PredicateContext.line_ c)
                         (PredicateContext.expr_ c) lvl
                         (set_lastUsedPredicateId_
                            (PredicateContext.id_ c) r))))
        as (h' & Hrun & Hch' & Hout).
      { simpl. by apply chain_alter_outside. }
      { simpl in Hfuel. lia. }
      exists h'. split; [|split].
      * unfold on_self, poke, back_ptr. simpl.
        rewrite length_app. simpl.
        replace (Nat.pred (length (failures_ r) + 1)) with
          (length (failures_ r)) by lia.
        rewrite Hrun. simpl. rewrite <- app_assoc. by destruct r.
      * simpl in Hch'. rewrite length_app in Hch'. simpl in Hch'.
        replace (length (failures_ r) + 1)%nat with (S (length (failures_ r)))
          in Hch' by lia.
        split; [done|]. split; [|done].
        rewrite Hout; [|done]. simpl.
        by rewrite lookup_alter_eq, Ha.
      * intros a' Ha'. simpl in Ha'. apply not_elem_of_cons in Ha' as [? ?].
        rewrite Hout; [|done]. simpl. by rewrite lookup_alter_ne.
    + edestruct (IH fuel (PredicateContext.next_ c) (wrap32 (lvl + 1))
                   (mkMem h r)) as (h' & Hrun & Hch' & Hout).
      { done. }
      { simpl in Hfuel. lia. }
      exists h'. split; [|split].
      * by rewrite Hrun.
      * simpl in Hch'. split; [done|]. split; [|done].
        rewrite Hout; done.
      * intros a' Ha'. simpl in Ha'. apply not_elem_of_cons in Ha' as [? ?].
        by rewrite Hout.
Qed.

Lemma ancestry_length lvl l : length (ancestry lvl l) = length l.
Proof.
  revert lvl. induction l as [|[a c] l IH]; intros lvl; simpl; [done|].
  by rewrite IH.
Qed.



(** Ids that grow from above [w] and fit [unsigned int] bound the depth. *)
Lemma fresh_depth w l :
  fresh w l → ids_in_range l →
  l = [] ∨ w + N.of_nat (length l) < UINT_MODULUS.
Proof.
  revert w. induction l as [|[a c] l IH]; intros w; [by left|].
  intros [Hw Hfr] Hr. apply Forall_cons in Hr as [Hc Hr]. simpl in Hc.
  right. destruct (IH _ Hfr Hr) as [->|Hb]; simpl length; lia.
Qed.

Lemma level_after_small lvl k :
  lvl + N.of_nat k < UINT_MODULUS → level_after lvl k = lvl + N.of_nat k.
Proof.
  revert lvl. induction k as [|k IH]; intros lvl Hb; simpl.
  - lia.
  - unfold wrap32. rewrite N.mod_small by lia. rewrite IH; lia.
Qed.

(** On a chain none of whose frames was reported, every frame is. *)
Lemma new_records_fresh w lvl l :
  fresh w l → new_records w lvl l = ancestry lvl l.
Proof.
  revert w lvl. induction l as [|[a c] l IH]; intros w lvl; [done|].
  intros [Hw Hfr]. simpl.
  apply N.ltb_lt in Hw as ->. f_equal. by apply IH.
Qed.

(** One call of [addFailure] on a chain none of whose frames was reported
    yet: it returns, having appended the chain's records and then the
    record of the failing expression. *)
Lemma addFailure_fresh_chain m l fuel file line expr :
  chain (frames m) (PredicateContext.next_ (rootPredicateNode_ (self m))) l →
  fresh (lastUsedPredicateId_ (self m)) l →
  ids_in_range l →
  (length l ≤ fuel)%nat →
  N.of_nat (length l) < UINT_MODULUS ∧
  ∃ m', addFailure fuel file line expr m = Done m' ∧
    failures_ (self m') =
      failures_ (self m) ++ ancestry 0 l ++
        [assertion_record file line expr (N.of_nat (length l))].
Proof.
  intros Hch Hfr Hr Hfuel.
  destruct (addFailure_walk_chain l fuel _ 0 m Hch Hfuel)
    as (h' & Hrun & _ & _).
  assert (Hb : 0 + N.of_nat (length l) < UINT_MODULUS).
  { destruct (fresh_depth _ _ Hfr Hr) as [->|Hb]; [done|lia]. }
  split; [lia|].
  rewrite level_after_small, (new_records_fresh _ _ _ Hfr) in Hrun by done.
  unfold addFailure. rewrite Hrun. simpl.
  eexists. split; [reflexivity|]. simpl.
  by rewrite <- app_assoc.
Qed.


(** The sample state is what entering the two assertions produces. *)
Example sample_mem_reached :
  (m1 ← pushPredicateContext 100 "t.cpp" 10 "outer()"
          (mkMem ∅ TestResult_new);
   pushPredicateContext 200 "t.cpp" 20 "inner()" m1) = Done sample_mem.
Proof. vm_compute. reflexivity. Qed.


(** * A second addFailure in the same chain *)

(** A walk over frames whose ids do not exceed the watermark changes
    nothing. *)
Lemma addFailure_walk_stale l : ∀ fuel p lvl m,
  chain (frames m) p l →
  Forall (λ e, PredicateContext.id_ e.2 ≤ lastUsedPredicateId_ (self m)) l →
  (length l ≤ fuel)%nat →
  addFailure_walk fuel p lvl m = Done (level_after lvl (length l), m).
Proof.
  induction l as [|[a c] l IH]; intros fuel p lvl m Hch Hold Hfuel.
  - simpl in Hch. subst p. by destruct fuel.
  - destruct Hch as (-> & Ha & Hl).
    apply Forall_cons in Hold as [Hc Hold]. simpl in Hc.
    destruct fuel as [|fuel]; [simpl in Hfuel; lia|].
    simpl. rewrite Ha. simpl.
    apply N.ltb_ge in Hc as ->.
    apply IH; [done|done|simpl in Hfuel; lia].
Qed.

Lemma new_watermark_ge w l : w ≤ new_watermark w l.
Proof.
  revert w. induction l as [|[a c] l IH]; intros w; simpl; [lia|].
  destruct (w <? PredicateContext.id_ c) eqn:E; [|done].
  apply N.ltb_lt in E. specialize (IH (PredicateContext.id_ c)). lia.
Qed.

(** After a walk the watermark is at least every id of the chain. *)
Lemma new_watermark_covers w l :
  Forall (λ e, PredicateContext.id_ e.2 ≤ new_watermark w l) l.
Proof.
  revert w. induction l as [|[a c] l IH]; intros w; simpl; [constructor|].
  destruct (w <? PredicateContext.id_ c) eqn:E; constructor; simpl; auto.
  - apply new_watermark_ge.
  - apply N.ltb_ge in E. pose proof (new_watermark_ge w l). lia.
Qed.

Lemma relinked_ids (P : N → Prop) w n l :
  Forall (λ e, P (PredicateContext.id_ e.2)) l →
  Forall (λ e, P (PredicateContext.id_ e.2)) (relinked w n l).
Proof.
  revert w n. induction l as [|[a c] l IH]; intros w n; simpl; [done|].
  intros Hl. apply Forall_cons in Hl as [Hc Hl].
  destruct (w <? PredicateContext.id_ c); constructor; auto.
Qed.

(** A walk makes at most one record per frame, in chain order. *)
Lemma new_records_sublist w lvl l : new_records w lvl l `sublist_of` ancestry lvl l.
Proof.
  revert w lvl. induction l as [|[a c] l IH]; intros w lvl; simpl; [done|].
  destruct (w <? PredicateContext.id_ c).
  - by apply sublist_skip.
  - by apply sublist_cons.
Qed.

(** C2. Whatever the chain and the watermark, two calls of
    [TestResult::addFailure] in the same chain both return; the first
    appends at most one record per frame (a sublist of the chain's records)
    and the failing expression's record, the second appends the record of
    its failing expression alone and leaves every frame and the watermark
    as they were: no frame is reported twice. *)
Theorem addFailure_twice_reports_frames_once :
  ∀ (m : Mem) (l : list (addr * PredicateContext.t)) (fuel : nat)
    (file1 : option string) (line1 : N) (expr1 : option string)
    (file2 : option string) (line2 : N) (expr2 : option string),
    chain (frames m)
      (PredicateContext.next_ (rootPredicateNode_ (self m))) l →
    (length l ≤ fuel)%nat →
    ∃ m1 m2 recs,
      addFailure fuel file1 line1 expr1 m = Done m1 ∧
      addFailure fuel file2 line2 expr2 m1 = Done m2 ∧
      recs `sublist_of` ancestry 0 l ∧
      failures_ (self m1) =
        failures_ (self m) ++ recs ++
          [assertion_record file1 line1 expr1 (level_after 0 (length l))] ∧
      failures_ (self m2) =
        failures_ (self m1) ++
          [assertion_record file2 line2 expr2 (level_after 0 (length l))] ∧
      frames m2 = frames m1 ∧
      lastUsedPredicateId_ (self m2) = lastUsedPredicateId_ (self m1).
Proof.
  intros m l fuel file1 line1 expr1 file2 line2 expr2 Hch Hfuel.
  destruct (addFailure_walk_chain l fuel _ 0 m Hch Hfuel)
    as (h' & Hrun & Hch' & _).
  set (w := lastUsedPredicateId_ (self m)) in *.
  set (l' := relinked w (length (failures_ (self m))) l) in *.
  assert (Hlen : length l' = length l).
  { rewrite <- (length_fmap fst l'), <- (length_fmap fst l).
    unfold l'. by rewrite relinked_fst. }
  eexists _, _, (new_records w 0 l).
  split; [|split; [|split; [apply new_records_sublist|]]].
  - unfold addFailure. rewrite Hrun. reflexivity.
  - unfold addFailure at 1. simpl.
    rewrite (addFailure_walk_stale l' fuel).
    + reflexivity.
    + done.
    + simpl. unfold l'.
      apply (relinked_ids (λ i, i ≤ new_watermark w l)), new_watermark_covers.
    + lia.
  - simpl. rewrite Hlen, <- app_assoc. done.
Qed.

Lemma addFailure_twice_reports_frames_once_witness :
  ∃ m1 m2,
    addFailure 2 (Some "t.cpp") 30 (Some "x == y") sample_mem = Done m1 ∧
    addFailure 2 (Some "t.cpp") 31 (Some "x == z") m1 = Done m2 ∧
    failures_ (self m2) =
      failures_ (self m1) ++
        [assertion_record (Some "t.cpp") 31 (Some "x == z") 2].
Proof.
  destruct (addFailure_twice_reports_frames_once sample_mem sample_chain 2
              (Some "t.cpp") 30 (Some "x == y")
              (Some "t.cpp") 31 (Some "x == z"))
    as (m1 & m2 & recs & H1 & H2 & _ & _ & H5 & _).
  - repeat split; reflexivity.
  - simpl. lia.
  - exists m1, m2. split; [exact H1|]. split; [exact H2|exact H5].
Defined.

(** * popPredicateContext over a chain *)

Lemma chain_snoc_tail h p l a c :
  chain h p (l ++ [(a, c)]) →
  h !! a = Some c ∧ PredicateContext.next_ c = None ∧ a ∉ l.*1.
Proof.
  intros Hch. pose proof (chain_NoDup _ _ _ Hch) as Hnd.
  destruct (chain_app_inv _ _ _ _ Hch) as (q & (-> & Ha & Hnone) & _).
  split; [done|]. split; [done|].
  rewrite fmap_app in Hnd. apply NoDup_app in Hnd as (_ & Hdis & _).
  intros Hin. apply (Hdis _ Hin). simpl. apply elem_of_cons. by left.
Qed.

(** From a node [p] with the frames [l ++ [(a, c)]] behind it, the walk of
    [popPredicateContext] stops at the node before [a]. *)
Lemma popPredicateContext_walk_chain l : ∀ fuel p node m a c,
  load (Some p) m = Done node →
  chain (frames m) (PredicateContext.next_ node) (l ++ [(a, c)]) →
  (length l ≤ fuel)%nat →
  popPredicateContext_walk fuel p m = Done (last_node p l).
Proof.
  induction l as [|[b cb] l IH]; intros fuel p node m a c Hload Hch Hfuel.
  - destruct Hch as (Hnext & Ha & Hnone). simpl in Hnone.
    assert (Hla : load (Some (Frame a)) m = Done c) by (simpl; by rewrite Ha).
    destruct fuel; cbn -[load]; rewrite Hload; cbn -[load]; rewrite Hnext;
      cbn -[load]; rewrite Hla; cbn -[load]; by rewrite Hnone.
  - destruct Hch as (Hnext & Hb & Hl).
    destruct fuel as [|fuel]; [simpl in Hfuel; lia|].
    assert (Hsome : ∃ q, PredicateContext.next_ cb = Some q).
    { destruct l as [|[? ?] ?]; destruct Hl as (-> & _); eauto. }
    destruct Hsome as (q & Hq).
    assert (Hlb : load (Some (Frame b)) m = Done cb) by (simpl; by rewrite Hb).
    cbn -[load]. rewrite Hload. cbn -[load]. rewrite Hnext. cbn -[load].
    rewrite Hlb. cbn -[load]. rewrite Hq.
    rewrite (IH fuel (Frame b) cb m a c); [|done|done|simpl in Hfuel; lia].
    unfold last_node. destruct l as [|e l]; [done|].
    rewrite last_cons_cons.
    destruct (last (e :: l)) as [[? ?]|] eqn:E; [done|].
    by apply last_None in E.
Qed.

(** The node the walk stops at is in memory and points at the tail. *)
Lemma last_node_load m l a c :
  chain (frames m)
    (PredicateContext.next_ (rootPredicateNode_ (self m))) (l ++ [(a, c)]) →
  ∃ node, load (Some (last_node Root l)) m = Done node ∧
          PredicateContext.next_ node = Some (Frame a).
Proof.
  intros Hch. destruct (chain_app_inv _ _ _ _ Hch) as (q & (-> & _) & Hlast).
  unfold last_node. destruct (last l) as [[b cb]|].
  - destruct Hlast as [Hb Hq]. exists cb. simpl. by rewrite Hb.
  - exists (rootPredicateNode_ (self m)). by split.
Qed.

(** What [popPredicateContext] does on a chain with tail frame [(a, c)]:
    the frame is unlinked, the tail pointer moves to the node before it,
    and the message target becomes the frame's record if it has one. *)
Lemma popPredicateContext_chain m l a c fuel :
  chain (frames m)
    (PredicateContext.next_ (rootPredicateNode_ (self m))) (l ++ [(a, c)]) →
  (length l ≤ fuel)%nat →
  ∃ m',
    popPredicateContext fuel m = Done m' ∧
    chain (frames m')
      (PredicateContext.next_ (rootPredicateNode_ (self m'))) (seal_last l) ∧
    predicateStackTail_ (self m') = Some (last_node Root l) ∧
    messageTarget_ (self m') =
      match PredicateContext.failure_ c with
      | Some f => Some f
      | None => messageTarget_ (self m)
      end ∧
    failures_ (self m') = failures_ (self m) ∧
    lastUsedPredicateId_ (self m') = lastUsedPredicateId_ (self m) ∧
    predicateId_ (self m') = predicateId_ (self m) ∧
    name_ (self m') = name_ (self m) ∧
    frames m' !! a = Some c.
Proof.
  intros Hch Hfuel.
  destruct (chain_snoc_tail _ _ _ _ _ Hch) as (Ha & Hnone & Hnin).
  destruct (last_node_load _ _ _ _ Hch) as (node & Hnode & Hnext).
  unfold popPredicateContext.
  rewrite (popPredicateContext_walk_chain l fuel Root
             (rootPredicateNode_ (self m)) m a c); [|done|done|done].
  assert (Hla : load (Some (Frame a)) m = Done c) by (simpl; by rewrite Ha).
  cbn -[load]. rewrite Hnode. cbn -[load]. rewrite Hnext, Hla. cbn -[load].
  clear Hnode Hla.
  destruct m as [h r]. simpl in Hch, Ha.
  destruct (PredicateContext.failure_ c) as [f|]; cbn -[load];
    (eexists; split; [reflexivity|]);
    destruct l as [|[b cb] l0 _] using rev_ind.
  all: try (simpl; by repeat split).
  all: unfold last_node; rewrite last_snoc, seal_last_snoc.
  all: assert (Hab : b ≠ a)
    by (intros ->; apply Hnin; rewrite fmap_app; apply elem_of_app; right;
        simpl; apply elem_of_cons; by left).
  all: rewrite <- app_assoc in Hch; simpl in Hch.
  all: simpl; split; [by apply chain_cut in Hch|].
  all: rewrite lookup_alter_ne by done; by repeat split.
Qed.

Example sample_failed_reached :
  addFailure 2 (Some "t.cpp") 30 (Some "x == y") sample_mem =
  Done sample_failed.
Proof. vm_compute. reflexivity. Qed.

(** * Appending to the message target *)

Lemma addToLastFailure_target text r i f :
  messageTarget_ r = Some i → failures_ r !! i = Some f →
  ∃ r', addToLastFailure text r = Done r' ∧
        failures_ r' !! i =
          Some (Failure.set_message_ (Failure.message_ f +:+ text) f) ∧
        (∀ j, j ≠ i → failures_ r' !! j = failures_ r !! j) ∧
        length (failures_ r') = length (failures_ r) ∧
        messageTarget_ r' = Some i ∧
        lastUsedPredicateId_ r' = lastUsedPredicateId_ r ∧
        rootPredicateNode_ r' = rootPredicateNode_ r ∧
        predicateStackTail_ r' = predicateStackTail_ r ∧
        predicateId_ r' = predicateId_ r ∧
        name_ r' = name_ r.
Proof.
  intros Ht Hf. unfold addToLastFailure. rewrite Ht, Hf.
  eexists. split; [reflexivity|]. simpl.
  split; [|split; [|split]].
  - apply list_lookup_insert_eq. by eapply lookup_lt_Some.
  - intros j Hj. by apply list_lookup_insert_ne.
  - apply length_insert.
  - by repeat split.
Qed.

(** C3. When the tail frame of the chain was linked to a Failure Record
    (an assertion failed inside it), [TestResult::popPredicateContext]
    returns, unlinks that frame, and makes the frame's record the message
    target; text appended afterwards goes onto that record and changes no
    other record, the inner failure's included. *)
Theorem popPredicateContext_retargets_to_frame_record :
  ∀ (m : Mem) (l : list (addr * PredicateContext.t)) (a : addr)
    (c : PredicateContext.t) (i : FailurePtr) (f : Failure.t) (fuel : nat),
    chain (frames m)
      (PredicateContext.next_ (rootPredicateNode_ (self m)))
      (l ++ [(a, c)]) →
    PredicateContext.failure_ c = Some i →
    failures_ (self m) !! i = Some f →
    (length l ≤ fuel)%nat →
    ∃ m',
      popPredicateContext fuel m = Done m' ∧
      chain (frames m')
        (PredicateContext.next_ (rootPredicateNode_ (self m')))
        (seal_last l) ∧
      predicateStackTail_ (self m') = Some (last_node Root l) ∧
      messageTarget_ (self m') = Some i ∧
      failures_ (self m') = failures_ (self m) ∧
      ∀ text, ∃ r',
        addToLastFailure text (self m') = Done r' ∧
        failures_ r' !! i =
          Some (Failure.set_message_ (Failure.message_ f +:+ text) f) ∧
        ∀ j, j ≠ i → failures_ r' !! j = failures_ (self m) !! j.
Proof.
  intros m l a c i f fuel Hch Hlink Hf Hfuel.
  destruct (popPredicateContext_chain m l a c fuel Hch Hfuel)
    as (m' & Hrun & Hch' & Htail & Htarget & Hfail & _).
  rewrite Hlink in Htarget.
  exists m'. repeat (split; [done|]).
  intros text.
  destruct (addToLastFailure_target text (self m') i f)
    as (r' & Hadd & Hi & Hj & _); [done|by rewrite Hfail|].
  exists r'. rewrite <- Hfail. by repeat split.
Qed.

Lemma popPredicateContext_retargets_to_frame_record_witness :
  ∃ m' r',
    popPredicateContext 1 sample_failed = Done m' ∧
    messageTarget_ (self m') = Some 1%nat ∧
    addToLastFailure "seen by inner()" (self m') = Done r' ∧
    failures_ r' !! 1%nat =
      Some (Failure.set_message_ "seen by inner()"
              (frame_record sample_inner 1)) ∧
    failures_ r' !! 2%nat =
      Some (assertion_record (Some "t.cpp") 30 (Some "x == y") 2).
Proof.
  destruct (popPredicateContext_retargets_to_frame_record sample_failed
              [(100, sample_outer_linked)] 200 sample_inner_linked
              1%nat (frame_record sample_inner 1) 1)
    as (m' & Hrun & _ & _ & Htarget & _ & Happ).
  - repeat split; reflexivity.
  - reflexivity.
  - reflexivity.
  - simpl. lia.
  - destruct (Happ "seen by inner()") as (r' & Hadd & Hi & Hj).
    exists m', r'. split; [exact Hrun|]. split; [exact Htarget|].
    split; [exact Hadd|]. split; [exact Hi|].
    etrans; [apply (Hj 2%nat); discriminate|reflexivity].
Defined.

(** C10. When the tail frame of the chain has no record linked to it,
    [TestResult::popPredicateContext] returns and unlinks the frame; the
    message target and the Failure Records are as before. *)
Theorem popPredicateContext_unreported_frame :
  ∀ (m : Mem) (l : list (addr * PredicateContext.t)) (a : addr)
    (c : PredicateContext.t) (fuel : nat),
    chain (frames m)
      (PredicateContext.next_ (rootPredicateNode_ (self m)))
      (l ++ [(a, c)]) →
    PredicateContext.failure_ c = None →
    (length l ≤ fuel)%nat →
    ∃ m',
      popPredicateContext fuel m = Done m' ∧
      chain (frames m')
        (PredicateContext.next_ (rootPredicateNode_ (self m')))
        (seal_last l) ∧
      predicateStackTail_ (self m') = Some (last_node Root l) ∧
      messageTarget_ (self m') = messageTarget_ (self m) ∧
      failures_ (self m') = failures_ (self m).
Proof.
  intros m l a c fuel Hch Hnone Hfuel.
  destruct (popPredicateContext_chain m l a c fuel Hch Hfuel)
    as (m' & Hrun & Hch' & Htail & Htarget & Hfail & _).
  rewrite Hnone in Htarget. exists m'. by repeat split.
Qed.

Lemma popPredicateContext_unreported_frame_witness :
  ∃ m',
    popPredicateContext 1 sample_mem = Done m' ∧
    predicateStackTail_ (self m') = Some (Frame 100) ∧
    messageTarget_ (self m') = None ∧
    failures_ (self m') = [].
Proof.
  destruct (popPredicateContext_unreported_frame sample_mem
              [(100, sample_outer)] 200 sample_inner 1)
    as (m' & Hrun & _ & Htail & Htarget & Hfail).
  - repeat split; reflexivity.
  - reflexivity.
  - simpl. lia.
  - exists m'. split; [exact Hrun|]. split; [exact Htail|].
    split; [exact Htarget|exact Hfail].
Defined.

(** C9. With the root alone in the chain and the tail pointer at the root,
    [TestResult::popPredicateContext] returns and the whole state, memory
    included, is the one before the call. *)
Theorem popPredicateContext_root_only :
  ∀ (m : Mem) (fuel : nat),
    PredicateContext.next_ (rootPredicateNode_ (self m)) = None →
    predicateStackTail_ (self m) = Some Root →
    popPredicateContext fuel m = Done m.
Proof.
  intros [h [pid tail fs name [rid rfile rline rexpr rnext rfail] w mt]] fuel.
  simpl. intros -> ->. by destruct fuel.
Qed.

Lemma popPredicateContext_root_only_witness :
  popPredicateContext 0 (mkMem ∅ TestResult_new) = Done (mkMem ∅ TestResult_new).
Proof.
  apply (popPredicateContext_root_only (mkMem ∅ TestResult_new) 0);
    reflexivity.
Defined.

(** * Strings *)

Lemma string_app_assoc (s1 s2 s3 : string) :
  (s1 +:+ s2) +:+ s3 = s1 +:+ (s2 +:+ s3).
Proof.
  induction s1 as [|c s1 IH]; [done|]. exact (f_equal (String c) IH).
Qed.

Lemma string_app_nil_r (s : string) : s +:+ "" = s.
Proof.
  induction s as [|c s IH]; [done|]. exact (f_equal (String c) IH).
Qed.

(** * The message operators *)

(** C7. Without a message target [TestResult::addToLastFailure], and with it
    every [operator<<] overload, returns the result unchanged; with a target
    it appends the text to the target record's message and changes nothing
    else. *)
Theorem addToLastFailure_needs_target :
  ∀ (r : TestResult.t),
    (messageTarget_ r = None →
       (∀ text, addToLastFailure text r = Done r) ∧
       (∀ v, shl_int64 v r = Done r) ∧
       (∀ v, shl_uint64 v r = Done r) ∧
       (∀ v, shl_bool v r = Done r) ∧
       (∀ (T : Type) (ins : OStreamable T) (v : T), shl_generic v r = Done r)) ∧
    (∀ i f text,
       messageTarget_ r = Some i → failures_ r !! i = Some f →
       ∃ r', addToLastFailure text r = Done r' ∧
             failures_ r' !! i =
               Some (Failure.set_message_ (Failure.message_ f +:+ text) f) ∧
             (∀ j, j ≠ i → failures_ r' !! j = failures_ r !! j) ∧
             length (failures_ r') = length (failures_ r) ∧
             messageTarget_ r' = Some i ∧
             lastUsedPredicateId_ r' = lastUsedPredicateId_ r ∧
             rootPredicateNode_ r' = rootPredicateNode_ r ∧
             predicateStackTail_ r' = predicateStackTail_ r ∧
             predicateId_ r' = predicateId_ r ∧
             name_ r' = name_ r).
Proof.
  intros r. split.
  - intros Hnone.
    assert (H : ∀ text, addToLastFailure text r = Done r).
    { intros text. unfold addToLastFailure. by rewrite Hnone. }
    repeat split; intros; unfold shl_int64, shl_uint64, shl_bool, shl_generic;
      apply H.
  - intros i f text. apply addToLastFailure_target.
Qed.

Lemma addToLastFailure_needs_target_witness :
  shl_int64 (-5) TestResult_new = Done TestResult_new ∧
  ∃ r', addToLastFailure "note" sample_result = Done r' ∧
        failures_ r' !! 0%nat =
          Some (Failure.set_message_ "note"
                  (assertion_record (Some "t.cpp") 7 (Some "a == b") 0)).
Proof.
  split.
  - apply (proj1 (addToLastFailure_needs_target TestResult_new)).
    reflexivity.
  - destruct (proj2 (addToLastFailure_needs_target sample_result) 0%nat
                (assertion_record (Some "t.cpp") 7 (Some "a == b") 0) "note")
      as (r' & Hadd & Hi & _); [reflexivity|reflexivity|].
    exists r'. split; [exact Hadd|exact Hi].
Defined.

(** C5, as the code has it.  With a message target, chaining [operator<<]
    with a signed and an unsigned 64-bit integer, a boolean and a value of
    any streamable type appends, in call order, the decimal text of the
    integers, ["true"] or ["false"], and the text the value writes to a
    stream set to precision 16 and [hexfloat]; no other record changes. *)
Theorem shift_operators_append_in_order :
  ∀ (T : Type) (ins : OStreamable T) (r : TestResult.t) (i : FailurePtr)
    (f : Failure.t) (n : Z) (u : N) (b : bool) (v : T),
    messageTarget_ r = Some i → failures_ r !! i = Some f →
    ∃ r',
      (r1 ← shl_int64 n r; r2 ← shl_uint64 u r1; r3 ← shl_bool b r2;
       shl_generic v r3) = Done r' ∧
      failures_ r' !! i =
        Some (Failure.set_message_
                (Failure.message_ f +:+ pretty n +:+ pretty u +:+
                   (if b then "true" else "false") +:+
                   ostream_insert (hexfloat (setprecision 16 ios_init)) v)
                f) ∧
      (∀ j, j ≠ i → failures_ r' !! j = failures_ r !! j) ∧
      messageTarget_ r' = Some i.
Proof.
  intros T ins r i f n u b v Ht Hf.
  unfold shl_int64, shl_uint64, shl_bool, shl_generic.
  destruct (addToLastFailure_target (pretty n) r i f Ht Hf)
    as (r1 & -> & Hf1 & Hj1 & _ & Ht1 & _).
  destruct (addToLastFailure_target (pretty u) r1 i _ Ht1 Hf1)
    as (r2 & E2 & Hf2 & Hj2 & _ & Ht2 & _).
  destruct (addToLastFailure_target (if b then "true" else "false")
              r2 i _ Ht2 Hf2)
    as (r3 & E3 & Hf3 & Hj3 & _ & Ht3 & _).
  destruct (addToLastFailure_target
              (ostream_insert (hexfloat (setprecision 16 ios_init)) v)
              r3 i _ Ht3 Hf3)
    as (r4 & E4 & Hf4 & Hj4 & _ & Ht4 & _).
  exists r4. cbn. rewrite E2. cbn. rewrite E3. cbn. rewrite E4.
  split; [done|]. split; [|split; [|done]].
  - rewrite Hf4. simpl. by rewrite !string_app_assoc.
  - intros j Hj. by rewrite Hj4, Hj3, Hj2, Hj1.
Qed.

Lemma shift_operators_append_in_order_witness :
  ∃ r',
    (r1 ← shl_int64 (-42) sample_result; r2 ← shl_uint64 7 r1;
     r3 ← shl_bool true r2; shl_generic "units" r3) = Done r' ∧
    failures_ r' !! 0%nat =
      Some (Failure.set_message_ "-427trueunits"
              (assertion_record (Some "t.cpp") 7 (Some "a == b") 0)).
Proof.
  destruct (shift_operators_append_in_order string string_ostreamable
              sample_result 0%nat
              (assertion_record (Some "t.cpp") 7 (Some "a == b") 0)
              (-42) 7 true "units")
    as (r' & Hrun & Hi & _); [reflexivity|reflexivity|].
  exists r'. split; [exact Hrun|exact Hi].
Defined.

(** C5 as the specification words it fails on floating-point values: the
    generic operator does not append the default rendering ["1"] of the
    [double] 1.0 but its [hexfloat] rendering. *)
Lemma shl_generic_not_default_rendering :
  ¬ (∀ (T : Type) (ins : OStreamable T) (r : TestResult.t) (i : FailurePtr)
       (f : Failure.t) (v : T),
       messageTarget_ r = Some i → failures_ r !! i = Some f →
       ∃ r', shl_generic v r = Done r' ∧
             failures_ r' !! i =
               Some (Failure.set_message_
                       (Failure.message_ f +:+ ostream_insert ios_init v) f)).
Proof.
  intros H.
  destruct (H double_one _ sample_result 0%nat
              (assertion_record (Some "t.cpp") 7 (Some "a == b") 0)
              dbl_1_0 eq_refl eq_refl) as (r' & Hrun & Hi).
  vm_compute in Hrun. injection Hrun as <-.
  vm_compute in Hi. discriminate Hi.
Qed.

(** * The watermark *)

Lemma bind_Done {A B : Type} (x : outcome A) (k : A → outcome B) (b : B) :
  x ≫= k = Done b → ∃ a, x = Done a ∧ k a = Done b.
Proof. destruct x; simpl; intros; [eauto|discriminate..]. Qed.

(** A write to the [failure_] field keeps the id of every node. *)
Lemma poke_failure_ids p v m q c1 :
  load (Some q) (poke p (PredicateContext.set_failure_ v) m) = Done c1 →
  ∃ c0, load (Some q) m = Done c0 ∧
        PredicateContext.id_ c0 = PredicateContext.id_ c1.
Proof.
  destruct m as [h r], p as [|a], q as [|b]; simpl.
  - intros [= <-]. eauto.
  - intros H. eauto.
  - intros H. eauto.
  - rewrite lookup_alter. case_decide as Hab.
    + subst b. destruct (h !! a) as [c0|]; simpl; [|discriminate].
      intros [= <-]. eauto.
    + intros H. eauto.
Qed.

Lemma poke_lastUsed p f m :
  lastUsedPredicateId_ (self (poke p f m)) = lastUsedPredicateId_ (self m).
Proof. by destruct p. Qed.

(** One step of the walk: the watermark stays, or rises to the id of the
    visited node. *)
Lemma addFailure_walk_watermark fuel : ∀ p lvl m lvl' m',
  addFailure_walk fuel p lvl m = Done (lvl', m') →
  lastUsedPredicateId_ (self m') = lastUsedPredicateId_ (self m) ∨
  (lastUsedPredicateId_ (self m) < lastUsedPredicateId_ (self m') ∧
   ∃ q c, load (Some q) m = Done c ∧
          PredicateContext.id_ c = lastUsedPredicateId_ (self m')).
Proof.
  induction fuel as [|fuel IH]; intros p lvl m lvl' m'.
  - destruct p; simpl; [discriminate|]. intros [= _ <-]. by left.
  - destruct p as [p|]; [|simpl; intros [= _ <-]; by left].
    cbn -[load poke]. intros Hrun.
    apply bind_Done in Hrun as (node & Hnode & Hrun).
    destruct (lastUsedPredicateId_ (self m) <? PredicateContext.id_ node)
      eqn:Hnew.
    + apply N.ltb_lt in Hnew.
      apply IH in Hrun. rewrite poke_lastUsed in Hrun. simpl in Hrun.
      right. destruct Hrun as [->|(Hlt & q & c & Hq & Hid)].
      * split; [done|]. eauto.
      * split; [lia|].
        apply poke_failure_ids in Hq as (c0 & Hq & Hid0).
        exists q, c0. split; [|congruence].
        by destruct m, q.
    + by apply IH in Hrun.
Qed.

Lemma addFailure_watermark fuel file line expr m m' :
  addFailure fuel file line expr m = Done m' →
  lastUsedPredicateId_ (self m') = lastUsedPredicateId_ (self m) ∨
  (lastUsedPredicateId_ (self m) < lastUsedPredicateId_ (self m') ∧
   ∃ q c, load (Some q) m = Done c ∧
          PredicateContext.id_ c = lastUsedPredicateId_ (self m')).
Proof.
  unfold addFailure. intros Hrun.
  apply bind_Done in Hrun as ([lvl m1] & Hwalk & [= <-]).
  apply addFailure_walk_watermark in Hwalk. exact Hwalk.
Qed.

Lemma popPredicateContext_watermark fuel m m' :
  popPredicateContext fuel m = Done m' →
  lastUsedPredicateId_ (self m') = lastUsedPredicateId_ (self m).
Proof.
  unfold popPredicateContext. intros Hrun.
  apply bind_Done in Hrun as (lastNode & _ & Hrun).
  apply bind_Done in Hrun as (node & _ & Hrun).
  apply bind_Done in Hrun as (m1 & Hm1 & [= <-]).
  assert (lastUsedPredicateId_ (self m1) = lastUsedPredicateId_ (self m))
    as <-.
  { destruct (PredicateContext.next_ node); [|by injection Hm1 as <-].
    apply bind_Done in Hm1 as (tnode & _ & Hm1).
    destruct (PredicateContext.failure_ tnode); by injection Hm1 as <-. }
  by destruct lastNode.
Qed.

Lemma pushPredicateContext_watermark a file line expr m m' :
  pushPredicateContext a file line expr m = Done m' →
  lastUsedPredicateId_ (self m') = lastUsedPredicateId_ (self m).
Proof.
  unfold pushPredicateContext. cbn -[load poke].
  destruct (predicateStackTail_ (self m)) as [tail|]; [|discriminate].
  intros Hrun. apply bind_Done in Hrun as (_ & _ & [= <-]).
  by destruct tail.
Qed.

Lemma addToLastFailure_watermark text r r' :
  addToLastFailure text r = Done r' →
  lastUsedPredicateId_ r' = lastUsedPredicateId_ r.
Proof.
  unfold addToLastFailure.
  destruct (messageTarget_ r); [|by intros [= <-]].
  destruct (failures_ r !! _); [|discriminate]. by intros [= <-].
Qed.

Lemma step_watermark fuel o m m' :
  step fuel o m = Done m' →
  lastUsedPredicateId_ (self m') = lastUsedPredicateId_ (self m) ∨
  (lastUsedPredicateId_ (self m) < lastUsedPredicateId_ (self m') ∧
   ∃ q c, load (Some q) m = Done c ∧
          PredicateContext.id_ c = lastUsedPredicateId_ (self m')).
Proof.
  destruct o; simpl.
  1: { intros [= <-]. by left. }
  1: { apply addFailure_watermark. }
  1: { intros H. left. by eapply pushPredicateContext_watermark. }
  1: { intros H. left. by eapply popPredicateContext_watermark. }
  all: unfold on_result; intros Hrun; left;
    apply bind_Done in Hrun as (r' & Hrun & [= <-]);
    by apply addToLastFailure_watermark in Hrun.
Qed.

(** C6. Every operation on a [TestResult] that returns leaves the
    watermark [lastUsedPredicateId_] as it was or raises it to the id of a
    node in memory, strictly above its old value; so over any sequence of
    operations the watermark never decreases. *)
Theorem lastUsedPredicateId_never_decreases :
  (∀ (fuel : nat) (o : Operation) (m m' : Mem),
     step fuel o m = Done m' →
     lastUsedPredicateId_ (self m') = lastUsedPredicateId_ (self m) ∨
     (lastUsedPredicateId_ (self m) < lastUsedPredicateId_ (self m') ∧
      ∃ q c, load (Some q) m = Done c ∧
             PredicateContext.id_ c = lastUsedPredicateId_ (self m'))) ∧
  (∀ (fuel : nat) (ops : list Operation) (m m' : Mem),
     run_ops fuel ops m = Done m' →
     lastUsedPredicateId_ (self m) ≤ lastUsedPredicateId_ (self m')).
Proof.
  split; [apply step_watermark|].
  intros fuel ops. induction ops as [|o ops IH]; intros m m'; simpl.
  - intros [= <-]. lia.
  - intros Hrun. apply bind_Done in Hrun as (m1 & Hstep & Hrun).
    apply IH in Hrun. apply step_watermark in Hstep as [Heq|[Hlt _]]; lia.
Qed.

Lemma lastUsedPredicateId_never_decreases_witness :
  ∃ m', run_ops 2%nat sample_ops (mkMem ∅ TestResult_new) = Done m' ∧
        lastUsedPredicateId_ (self (mkMem ∅ TestResult_new)) ≤
          lastUsedPredicateId_ (self m') ∧
        lastUsedPredicateId_ (self m') = 2.
Proof.
  eexists. split; [vm_compute; reflexivity|]. split.
  - apply (proj2 lastUsedPredicateId_never_decreases 2%nat sample_ops).
    vm_compute. reflexivity.
  - reflexivity.
Defined.

(** * indentText *)

Lemma string_drop_length n s :
  String.length (string_drop n s) = (String.length s - n)%nat.
Proof.
  revert s. induction n as [|n IH]; intros [|c s]; simpl; done || lia.
Qed.

Lemma string_drop_all s : string_drop (String.length s) s = "".
Proof. induction s as [|c s IH]; simpl; done. Qed.

Lemma find_lt ch s j : find ch 0 s = Some j → (j < String.length s)%nat.
Proof.
  revert j. induction s as [|c s IH]; intros j; simpl; [done|].
  case_decide.
  - intros [= <-]. lia.
  - destruct (find ch 0 s) as [j'|]; simpl; [|done].
    intros [= <-]. specialize (IH j' eq_refl). lia.
Qed.

(** Moving one character into the text moves every index by one. *)
Lemma indentText_loop_shift fuel : ∀ c text indent i acc,
  indentText_loop fuel (String c text) indent (S i) acc =
  indentText_loop fuel text indent i acc.
Proof.
  induction fuel as [|fuel IH]; intros c text indent i acc.
  - simpl. repeat case_decide; done || lia.
  - cbn [indentText_loop]. simpl String.length.
    destruct (decide (S i < S (String.length text))%nat) as [Hlt|Hge];
      destruct (decide (i < String.length text)%nat) as [Hlt'|Hge'];
      try lia; [|done].
    cbn [find]. unfold substr.
    destruct (find "010" i text) as [j|]; simpl fmap; cbn [substring];
      (etrans; [|apply (IH c)]); f_equal; try lia; f_equal; f_equal; lia.
Qed.

Lemma indentText_loop_drop fuel text indent i acc :
  (i ≤ String.length text)%nat →
  indentText_loop fuel text indent i acc =
  indentText_loop fuel (string_drop i text) indent 0 acc.
Proof.
  revert text. induction i as [|i IH]; intros [|c text] Hi; simpl in Hi;
    try done; try lia.
  rewrite indentText_loop_shift. simpl. apply IH. lia.
Qed.

(** The line up to and including the first line feed. *)
Lemma indent_lines_first_line indent s : ∀ b j,
  find "010" 0 s = Some j →
  spec_indent_lines indent b s =
    (if b then indent else "") +:+ substring 0 (j + 1) s +:+
    spec_indent_lines indent true (string_drop (j + 1) s).
Proof.
  induction s as [|c s IH]; intros b j; simpl; [done|].
  case_decide as Hc.
  - intros [= <-]. subst c. simpl. by destruct s.
  - destruct (find "010" 0 s) as [j'|] eqn:Hfind; simpl; [|done].
    intros [= <-]. rewrite bool_decide_eq_false_2 by done.
    rewrite (IH false j' eq_refl). done.
Qed.

Lemma indent_lines_no_feed indent s :
  find "010" 0 s = None → spec_indent_lines indent false s = s.
Proof.
  induction s as [|c s IH]; simpl; [done|].
  case_decide as Hc; [done|].
  destruct (find "010" 0 s); simpl; [done|]. intros _.
  rewrite bool_decide_eq_false_2 by done. by rewrite IH.
Qed.

Lemma substring_all s : substring 0 (String.length s) s = s.
Proof.
  induction s as [|c s IH]; simpl; [done|]. by rewrite IH.
Qed.

(** The loop of [indentText], started at the front of a text with enough
    fuel, indents every line. *)
Lemma indentText_loop_lines indent fuel : ∀ text acc,
  (String.length text ≤ fuel)%nat →
  indentText_loop fuel text indent 0 acc =
    Done (acc +:+ spec_indent_lines indent true text).
Proof.
  induction fuel as [|fuel IH]; intros text acc Hfuel.
  - destruct text; simpl in Hfuel; [|lia]. simpl.
    by rewrite string_app_nil_r.
  - destruct text as [|c text]; [simpl; by rewrite string_app_nil_r|].
    cbn [indentText_loop].
    destruct (decide (0 < String.length (String c text))%nat) as [_|Hn];
      [|simpl in Hn; lia].
    unfold substr.
    destruct (find "010" 0 (String c text)) as [j|] eqn:Hfind.
    + pose proof (find_lt _ _ _ Hfind) as Hj.
      rewrite indentText_loop_drop by lia.
      rewrite IH by (rewrite string_drop_length; simpl in *; lia).
      rewrite (indent_lines_first_line indent _ true j Hfind).
      replace (j - 0 + 1)%nat with (j + 1)%nat by lia.
      by rewrite !string_app_assoc.
    + replace (String.length (String c text) - 1 - 0 + 1)%nat
        with (String.length (String c text)) by (simpl; lia).
      replace (String.length (String c text) - 1 + 1)%nat
        with (String.length (String c text)) by (simpl; lia).
      rewrite indentText_loop_drop by lia.
      rewrite string_drop_all, substring_all.
      rewrite IH by (simpl; lia). cbn [spec_indent_lines].
      rewrite string_app_nil_r, string_app_assoc. do 2 f_equal.
      simpl in Hfind. case_decide as Hc; [done|].
      destruct (find "010" 0 text) eqn:Hf; [done|].
      simpl. rewrite bool_decide_eq_false_2 by done.
      by rewrite indent_lines_no_feed.
Qed.

(** [TestResult::indentText] always returns, with every line indented. *)
Lemma indentText_lines text indent :
  indentText text indent = Done (spec_indent_lines indent true text).
Proof.
  unfold indentText. by rewrite indentText_loop_lines.
Qed.

(** * printFailure *)

Lemma printFailure_body_render out failure :
  printFailure_body out failure = Done (out +:+ spec_render_record failure).
Proof.
  unfold printFailure_body, spec_render_record.
  destruct (Failure.file_ failure) as [file|];
    destruct (String.eqb (Failure.expr_ failure) "");
    destruct (String.eqb (Failure.message_ failure) "");
    cbn [negb]; rewrite ?indentText_lines; cbn [mbind outcome_bind];
    f_equal; rewrite ?string_app_assoc, ?string_app_nil_r; reflexivity.
Qed.

Lemma printFailure_loop_render failures : ∀ out,
  printFailure_loop failures out =
    Done (out +:+ string_concat (spec_render_record <$> failures)).
Proof.
  induction failures as [|failure rest IH]; intros out; simpl.
  - by rewrite string_app_nil_r.
  - rewrite printFailure_body_render. simpl. rewrite IH.
    by rewrite string_app_assoc.
Qed.




(** The same records in reverse order print differently. *)
Example printFailure_not_reversed :
  printFailure false sample_report "" ≠
    Done (string_concat (spec_render_record <$> reverse (failures_ sample_report))).
Proof. vm_compute. discriminate. Qed.

(** * Runner *)

(** C8. A Runner without registered factories: [runAllTest(true)] returns
    [true] and prints the one line ["All 0 tests passed"]. *)
Theorem runAllTest_no_tests :
  ∀ (out : Stdout),
    testCount Runner_new = 0%nat ∧
    runAllTest true Runner_new out =
      Done (true, out +:+ "All 0 tests passed" +:+ LF).
Proof. intros out. split; reflexivity. Qed.

(** * Entering nested predicate assertions *)

Lemma link_last_snoc a l b cb :
  link_last a (l ++ [(b, cb)]) =
  l ++ [(b, PredicateContext.set_next_ (Some (Frame a)) cb)].
Proof.
  induction l as [|[b' c'] l IH]; simpl; [done|].
  rewrite IH. by destruct l.
Qed.

Lemma chain_snoc_inv h p l b cb :
  chain h p (l ++ [(b, cb)]) →
  ∀ h' cb' l',
    h' !! b = Some cb' →
    (∀ x, x ≠ b → x ∈ l.*1 → h' !! x = h !! x) →
    chain h' (PredicateContext.next_ cb') l' →
    chain h' p (l ++ (b, cb') :: l').
Proof.
  intros Hch h' cb' l' Hb Hsame Hl'.
  pose proof (chain_NoDup _ _ _ Hch) as Hnd.
  revert p Hch Hnd Hsame. induction l as [|[x cx] l IH]; intros p; simpl.
  - intros (-> & _) _ _. by repeat split.
  - intros (-> & Hx & Hl) Hnd Hsame. apply NoDup_cons in Hnd as [Hnin Hnd].
    split; [done|]. split.
    + rewrite Hsame; [done| |apply elem_of_cons; by left].
      intros ->. apply Hnin. rewrite fmap_app. apply elem_of_app. right.
      simpl. apply elem_of_cons. by left.
    + apply IH; [done|done|]. intros y Hy Hin. apply Hsame; [done|].
      apply elem_of_cons. by right.
Qed.

(** Entering one predicate assertion on a well-formed chain whose tail
    pointer is right, with a frame address not in use: the new frame is
    linked last, gets the next id, and the id counter advances. *)
Lemma pushPredicateContext_chain m l a file line expr :
  chain (frames m) (PredicateContext.next_ (rootPredicateNode_ (self m))) l →
  predicateStackTail_ (self m) = Some (last_node Root l) →
  a ∉ l.*1 →
  ∃ m',
    pushPredicateContext a file line expr m = Done m' ∧
    chain (frames m')
      (PredicateContext.next_ (rootPredicateNode_ (self m')))
      (link_last a l ++
         [(a, PredicateContext.mk (predicateId_ (self m)) (Some file) line
                (Some expr) None None)]) ∧
    predicateStackTail_ (self m') =
      Some (last_node Root
              (link_last a l ++
                 [(a, PredicateContext.mk (predicateId_ (self m)) (Some file)
                        line (Some expr) None None)])) ∧
    predicateId_ (self m') = wrap32 (predicateId_ (self m) + 1) ∧
    lastUsedPredicateId_ (self m') = lastUsedPredicateId_ (self m) ∧
    failures_ (self m') = failures_ (self m) ∧
    messageTarget_ (self m') = messageTarget_ (self m).
Proof.
  intros Hch Htail Hnin. destruct m as [h r]. simpl in *.
  unfold pushPredicateContext. simpl. rewrite Htail.
  destruct l as [|[b cb] l0 _] using rev_ind.
  - simpl in Hch. unfold last_node. simpl.
    eexists. split; [reflexivity|]. simpl.
    rewrite lookup_insert_eq. by repeat split.
  - rewrite link_last_snoc. unfold last_node. rewrite !last_snoc.
    destruct (chain_snoc_tail _ _ _ _ _ Hch) as (Hb & Hnone & Hbn).
    assert (Hab : a ≠ b).
    { intros ->. apply Hnin. rewrite fmap_app. apply elem_of_app. right.
      simpl. apply elem_of_cons. by left. }
    simpl. rewrite lookup_insert_ne, Hb by done. simpl.
    eexists. split; [reflexivity|]. simpl.
    split; [|by repeat split].
    rewrite <- app_assoc. simpl.
    eapply (chain_snoc_inv _ _ _ _ _ Hch).
    + by rewrite lookup_alter_eq, lookup_insert_ne, Hb by done.
    + intros x Hx Hin. rewrite lookup_alter_ne, lookup_insert_ne; [done| |done].
      intros ->. apply Hnin. rewrite fmap_app. apply elem_of_app. by left.
    + simpl. split; [done|]. split; [|done].
      by rewrite lookup_alter_ne, lookup_insert_eq.
Qed.

Lemma link_last_view a l : frame_view <$> link_last a l = frame_view <$> l.
Proof.
  induction l as [|[b cb] l IH]; [done|].
  destruct l as [|e l]; [done|].
  change (link_last a ((b, cb) :: e :: l))
    with ((b, cb) :: link_last a (e :: l)).
  rewrite !fmap_cons. rewrite fmap_cons in IH. by rewrite IH.
Qed.

Lemma link_last_fst a l : (link_last a l).*1 = l.*1.
Proof.
  induction l as [|[b cb] l IH]; [done|].
  destruct l as [|e l]; [done|].
  change (link_last a ((b, cb) :: e :: l))
    with ((b, cb) :: link_last a (e :: l)).
  rewrite !fmap_cons. rewrite fmap_cons in IH. by rewrite IH.
Qed.

(** Entering nested predicate assertions, at addresses that are distinct
    and not in use, appends their frames to the chain in order, with
    consecutive ids. *)
Lemma enter_all_chain sites : ∀ m l,
  chain (frames m) (PredicateContext.next_ (rootPredicateNode_ (self m))) l →
  predicateStackTail_ (self m) = Some (last_node Root l) →
  NoDup (l.*1 ++ (site_addr <$> sites)) →
  predicateId_ (self m) + N.of_nat (length sites) < UINT_MODULUS →
  ∃ m' l',
    enter_all sites m = Done m' ∧
    chain (frames m')
      (PredicateContext.next_ (rootPredicateNode_ (self m'))) l' ∧
    frame_view <$> l' =
      (frame_view <$> l) ++ site_views (predicateId_ (self m)) sites ∧
    lastUsedPredicateId_ (self m') = lastUsedPredicateId_ (self m) ∧
    failures_ (self m') = failures_ (self m).
Proof.
  induction sites as [|s rest IH]; intros m l Hch Htail Hnd Hpid.
  - exists m, l. simpl. rewrite app_nil_r. by repeat split.
  - simpl in Hnd, Hpid.
    assert (Hnin : site_addr s ∉ l.*1).
    { intros Hin. apply NoDup_app in Hnd as (_ & Hdis & _).
      apply (Hdis _ Hin). apply elem_of_cons. by left. }
    destruct (pushPredicateContext_chain m l (site_addr s) (site_file s)
                (site_line s) (site_expr s) Hch Htail Hnin)
      as (m1 & Hpush & Hch1 & Htail1 & Hpid1 & Hw1 & Hf1 & _).
    unfold wrap32 in Hpid1. rewrite N.mod_small in Hpid1 by lia.
    destruct (IH m1 _ Hch1 Htail1) as (m' & l' & Hrun & Hch' & Hview & Hw & Hf).
    + rewrite fmap_app, link_last_fst, <- app_assoc. done.
    + rewrite Hpid1. lia.
    + exists m', l'. simpl. rewrite Hpush. simpl.
      split; [done|]. split; [done|]. split; [|split; congruence].
      rewrite Hview, fmap_app, link_last_view, <- app_assoc, Hpid1. done.
Qed.

(** A chain made of newly entered frames only: nothing of it was reported
    if the watermark is below the first id, and its records are those of
    the sites. *)
Lemma site_views_fresh sites : ∀ l pid w lvl,
  frame_view <$> l = site_views pid sites →
  w < pid →
  pid + N.of_nat (length sites) ≤ UINT_MODULUS →
  lvl + N.of_nat (length sites) < UINT_MODULUS →
  fresh w l ∧ ids_in_range l ∧ length l = length sites ∧
  ancestry lvl l = site_records lvl sites.
Proof.
  induction sites as [|s rest IH]; intros [|[a c] l] pid w lvl Hview Hw Hpid Hlvl;
    try discriminate.
  - split; [done|]. split; [constructor|]. done.
  - simpl in Hview, Hpid, Hlvl. injection Hview as Ha Hid Hfile Hline Hexpr Hview.
    destruct (IH l (pid + 1) pid (lvl + 1) Hview) as (Hfr & Hr & Hlen & Hanc);
      [lia..|].
    split; [|split; [|split]].
    + simpl. rewrite Hid. by split.
    + constructor; [simpl; lia|done].
    + simpl. by rewrite Hlen.
    + simpl. unfold wrap32. rewrite N.mod_small by lia. rewrite Hanc.
      unfold frame_record. by rewrite Hfile, Hline, Hexpr.
Qed.

(** X15. From a state with no predicate assertion in flight, entering [D]
    nested predicate assertions at distinct frame addresses, while the id
    counter stays below 2^32 and above the watermark, and failing once
    inside the innermost one appends
    the [D] records of the assertions, outermost first, and the record of
    the failing expression at level [D]. *)
Theorem nested_assertions_one_failure :
  ∀ (m : Mem) (sites : list Site) (fuel : nat)
    (file : option string) (line : N) (expr : option string),
    PredicateContext.next_ (rootPredicateNode_ (self m)) = None →
    predicateStackTail_ (self m) = Some Root →
    lastUsedPredicateId_ (self m) < predicateId_ (self m) →
    predicateId_ (self m) + N.of_nat (length sites) < UINT_MODULUS →
    NoDup (site_addr <$> sites) →
    (length sites ≤ fuel)%nat →
    ∃ m1 m2,
      enter_all sites m = Done m1 ∧
      addFailure fuel file line expr m1 = Done m2 ∧
      failures_ (self m2) =
        failures_ (self m) ++ site_records 0 sites ++
          [assertion_record file line expr (N.of_nat (length sites))].
Proof.
  intros m sites fuel file line expr Hroot Htail Hw Hpid Hnd Hfuel.
  destruct (enter_all_chain sites m []) as (m1 & l & Hrun & Hch & Hview & Hw1 & Hf1);
    [by rewrite Hroot|done|done|done|].
  simpl in Hview.
  destruct (site_views_fresh sites l (predicateId_ (self m))
              (lastUsedPredicateId_ (self m)) 0 Hview)
    as (Hfr & Hr & Hlen & Hanc); [lia..|].
  destruct (addFailure_fresh_chain m1 l fuel file line expr)
    as (_ & m2 & Hadd & Hfail); [done|by rewrite Hw1|done|lia|].
  exists m1, m2. split; [done|]. split; [done|].
  by rewrite Hfail, Hf1, Hanc, Hlen.
Qed.

Lemma nested_assertions_one_failure_witness :
  ∃ m1 m2,
    enter_all [mkSite 100 "t.cpp" 10 "outer()"; mkSite 200 "t.cpp" 20 "inner()"]
      (mkMem ∅ TestResult_new) = Done m1 ∧
    addFailure 2 (Some "t.cpp") 30 (Some "x == y") m1 = Done m2 ∧
    failures_ (self m2) =
      [frame_record sample_outer 0; frame_record sample_inner 1;
       assertion_record (Some "t.cpp") 30 (Some "x == y") 2].
Proof.
  apply (nested_assertions_one_failure (mkMem ∅ TestResult_new)
           [mkSite 100 "t.cpp" 10 "outer()"; mkSite 200 "t.cpp" 20 "inner()"]
           2 (Some "t.cpp") 30 (Some "x == y")).
  - reflexivity.
  - reflexivity.
  - reflexivity.
  - reflexivity.
  - apply (bool_decide_unpack (NoDup _)). vm_compute. exact I.
  - simpl. lia.
Defined.

(** The macro around a failing assertion: when it is left, the message
    target is the record of the predicate, not the one of the assertion
    inside it, and the chain is the root alone again. *)
Example JSONTEST_ASSERT_PRED_retargets :
  JSONTEST_ASSERT_PRED 1 100 "t.cpp" 10 "check()"
    (addFailure 1 (Some "t.cpp") 11 (Some "x == y"))
    (mkMem ∅ TestResult_new) =
  Done (mkMem ∅
          (TestResult.mk 2 (Some Root)
             [Failure.mk (Some "t.cpp") 10 "check()" "" 0;
              Failure.mk (Some "t.cpp") 11 "x == y" "" 1]
             "" (PredicateContext.mk 0 None 0 None None None) 1
             (Some 0%nat))).
Proof. vm_compute. reflexivity. Qed.

(** * Records are kept, links stay valid *)

Lemma ptr_ok_mono n n' p : ptr_ok n p → (n ≤ n')%nat → ptr_ok n' p.
Proof. destruct p; simpl; [lia|done]. Qed.

Lemma load_links_ok p m c :
  links_ok m → load p m = Done c →
  ptr_ok (length (failures_ (self m))) (PredicateContext.failure_ c).
Proof.
  intros (_ & Hroot & Hframes). destruct p as [[|a]|]; simpl; try done.
  - by intros [= <-].
  - destruct (frames m !! a) as [c'|] eqn:Ha; [|done].
    intros [= <-]. by eapply Hframes.
Qed.

Lemma extends_refl f : extends f f.
Proof.
  repeat split; try done. exists "". by rewrite string_app_nil_r.
Qed.

Lemma extends_trans f1 f2 f3 : extends f1 f2 → extends f2 f3 → extends f1 f3.
Proof.
  intros (? & ? & ? & ? & t1 & Ht1) (? & ? & ? & ? & t2 & Ht2).
  repeat split; try congruence.
  exists (t1 +:+ t2). by rewrite Ht2, Ht1, string_app_assoc.
Qed.

Lemma grows_refl fs : grows fs fs.
Proof. intros i f Hi. exists f. split; [done|apply extends_refl]. Qed.

Lemma grows_trans fs1 fs2 fs3 : grows fs1 fs2 → grows fs2 fs3 → grows fs1 fs3.
Proof.
  intros H12 H23 i f Hi. destruct (H12 i f Hi) as (f2 & Hi2 & He2).
  destruct (H23 i f2 Hi2) as (f3 & Hi3 & He3).
  exists f3. split; [done|]. by eapply extends_trans.
Qed.

Lemma grows_app fs extra : grows fs (fs ++ extra).
Proof.
  intros i f Hi. exists f. split; [|apply extends_refl].
  by apply lookup_app_l_Some.
Qed.

Lemma grows_length fs fs' : grows fs fs' → (length fs ≤ length fs')%nat.
Proof.
  intros Hg. destruct fs as [|f0 fs0] eqn:E using rev_ind; [simpl; lia|].
  clear IHfs0.
  destruct (Hg (length fs0) f0) as (f' & Hf' & _).
  { by rewrite lookup_app_r, Nat.sub_diag by lia. }
  apply lookup_lt_Some in Hf'. rewrite length_app. simpl. lia.
Qed.

(** The walk of [addFailure], on any memory: records are appended only, the
    message target is not written, and valid links stay valid. *)
Lemma addFailure_walk_keeps fuel : ∀ p lvl m lvl' m',
  addFailure_walk fuel p lvl m = Done (lvl', m') →
  (∃ extra, failures_ (self m') = failures_ (self m) ++ extra) ∧
  messageTarget_ (self m') = messageTarget_ (self m) ∧
  (links_ok m → links_ok m').
Proof.
  induction fuel as [|fuel IH]; intros p lvl m lvl' m'.
  - destruct p; simpl; [discriminate|]. intros [= _ <-].
    split; [exists []; by rewrite app_nil_r|done].
  - destruct p as [p|];
      [|simpl; intros [= _ <-]; split; [exists []; by rewrite app_nil_r|done]].
    cbn -[load poke]. intros Hrun.
    apply bind_Done in Hrun as (node & Hnode & Hrun).
    destruct (lastUsedPredicateId_ (self m) <? PredicateContext.id_ node);
      [|by apply IH in Hrun].
    apply IH in Hrun as ((extra & Hextra) & Htarget & Hlinks).
    destruct m as [h r].
    assert (Hf : ∀ q, failures_ (self (poke p q (on_self (addFailureInfo
               (PredicateContext.file_ node) (PredicateContext.line_ node)
               (PredicateContext.expr_ node) lvl)
               (on_self (set_lastUsedPredicateId_ (PredicateContext.id_ node))
                  (mkMem h r))))) =
             failures_ r ++ [frame_record node lvl]) by (intros q; by destruct p).
    assert (Ht : ∀ q, messageTarget_ (self (poke p q (on_self (addFailureInfo
               (PredicateContext.file_ node) (PredicateContext.line_ node)
               (PredicateContext.expr_ node) lvl)
               (on_self (set_lastUsedPredicateId_ (PredicateContext.id_ node))
                  (mkMem h r))))) = messageTarget_ r)
      by (intros q; by destruct p).
    rewrite Hf in Hextra. rewrite Ht in Htarget.
    split; [|split; [done|]].
    + exists ([frame_record node lvl] ++ extra). by rewrite Hextra, app_assoc.
    + intros (Hmt & Hroot & Hframes). apply Hlinks. simpl in *.
      unfold links_ok. rewrite Hf, Ht, length_app. simpl.
      split; [eapply ptr_ok_mono; [done|lia]|].
      destruct p as [|a]; simpl.
      * split; [rewrite length_app; simpl; lia|]. intros a c Ha.
        eapply ptr_ok_mono; [by eapply Hframes|lia].
      * split; [eapply ptr_ok_mono; [done|lia]|].
        intros b c. rewrite lookup_alter. case_decide as Hab.
        -- destruct (h !! _); simpl; [|done]. intros [= <-]. simpl.
           rewrite length_app. simpl. lia.
        -- intros Hb. eapply ptr_ok_mono; [by eapply Hframes|lia].
Qed.

Lemma addFailure_keeps fuel file line expr m m' :
  addFailure fuel file line expr m = Done m' →
  grows (failures_ (self m)) (failures_ (self m')) ∧
  (links_ok m → links_ok m').
Proof.
  unfold addFailure. intros Hrun.
  apply bind_Done in Hrun as ([lvl m1] & Hwalk & [= <-]).
  apply addFailure_walk_keeps in Hwalk as ((extra & Hextra) & Htarget & Hlinks).
  simpl. rewrite Hextra. split.
  - rewrite <- app_assoc. apply grows_app.
  - intros Hok. specialize (Hlinks Hok) as (_ & Hroot & Hframes).
    unfold links_ok. simpl. rewrite !length_app. simpl.
    split; [lia|]. split.
    + eapply ptr_ok_mono; [done|lia].
    + intros a c Ha. eapply ptr_ok_mono; [by eapply Hframes|lia].
Qed.

Lemma popPredicateContext_keeps fuel m m' :
  popPredicateContext fuel m = Done m' →
  failures_ (self m') = failures_ (self m) ∧
  (links_ok m → links_ok m').
Proof.
  unfold popPredicateContext. intros Hrun.
  apply bind_Done in Hrun as (lastNode & _ & Hrun).
  apply bind_Done in Hrun as (node & _ & Hrun).
  apply bind_Done in Hrun as (m1 & Hm1 & [= <-]).
  assert (Hm1' : failures_ (self m1) = failures_ (self m) ∧
                 frames m1 = frames m ∧
                 rootPredicateNode_ (self m1) = rootPredicateNode_ (self m) ∧
                 (links_ok m →
                  ptr_ok (length (failures_ (self m))) (messageTarget_ (self m1)))).
  { destruct (PredicateContext.next_ node) as [q|].
    - apply bind_Done in Hm1 as (tnode & Htnode & Hm1).
      destruct (PredicateContext.failure_ tnode) as [f|] eqn:Hf;
        injection Hm1 as <-; simpl; repeat split; try done.
      + intros Hok. pose proof (load_links_ok _ _ _ Hok Htnode) as H.
        by rewrite Hf in H.
      + by intros (? & _).
    - injection Hm1 as <-. repeat split; try done. by intros (? & _). }
  destruct Hm1' as (Hf & Hfr & Hroot & Hmt).
  destruct m as [h r], m1 as [h1 r1]. simpl in *. subst h1.
  split; [by destruct lastNode|].
  intros Hok. specialize (Hmt Hok). destruct Hok as (_ & Hr & Hframes).
  simpl in *. unfold links_ok.
  destruct lastNode as [|a]; simpl; rewrite Hf.
  - split; [done|]. split; [by rewrite Hroot|done].
  - split; [done|]. split; [by rewrite Hroot|].
    intros b c. rewrite lookup_alter. case_decide.
    + destruct (h !! _) as [c0|] eqn:Hb; simpl; [|done]. intros [= <-].
      simpl. by eapply Hframes.
    + apply Hframes.
Qed.

Lemma pushPredicateContext_keeps a file line expr m m' :
  pushPredicateContext a file line expr m = Done m' →
  failures_ (self m') = failures_ (self m) ∧
  (links_ok m → links_ok m').
Proof.
  unfold pushPredicateContext. cbn -[load poke].
  destruct (predicateStackTail_ (self m)) as [tail|]; [|discriminate].
  intros Hrun. apply bind_Done in Hrun as (_ & _ & [= <-]).
  destruct m as [h r]. split; [by destruct tail|].
  intros (Hmt & Hroot & Hframes). simpl in *. unfold links_ok.
  assert (Hins : ∀ b c,
            <[a:=PredicateContext.mk (predicateId_ r) (Some file) line
                   (Some expr) None None]> h !! b = Some c →
            ptr_ok (length (failures_ r)) (PredicateContext.failure_ c)).
  { intros b c. rewrite lookup_insert. case_decide.
    - by intros [= <-].
    - apply Hframes. }
  destruct tail as [|t]; simpl; repeat split; try done.
  intros b c. rewrite lookup_alter. case_decide.
  - destruct (_ !! _) as [c0|] eqn:Hb; simpl; [|done]. intros [= <-].
    simpl. by eapply Hins.
  - apply Hins.
Qed.

Lemma addToLastFailure_keeps text r r' :
  addToLastFailure text r = Done r' →
  grows (failures_ r) (failures_ r') ∧
  length (failures_ r') = length (failures_ r) ∧
  messageTarget_ r' = messageTarget_ r ∧
  rootPredicateNode_ r' = rootPredicateNode_ r.
Proof.
  unfold addToLastFailure.
  destruct (messageTarget_ r) as [i|] eqn:Ht;
    [|intros [= <-]; split; [apply grows_refl|done]].
  destruct (failures_ r !! i) as [f|] eqn:Hf; [|discriminate].
  intros [= <-]. simpl. split; [|by rewrite length_insert].
  intros j g Hj. destruct (decide (j = i)) as [->|Hne].
  - assert (Some g = Some f) as [= ->]
      by (etrans; [symmetry; exact Hj|exact Hf]).
    rewrite list_lookup_insert_eq by by eapply lookup_lt_Some.
    eexists. split; [done|]. repeat split; simpl; eauto.
  - rewrite list_lookup_insert_ne by done.
    exists g. split; [done|apply extends_refl].
Qed.

Lemma on_result_keeps (f : TestResult.t → outcome TestResult.t) text m m' :
  (∀ r, f r = addToLastFailure text r) →
  on_result f m = Done m' →
  grows (failures_ (self m)) (failures_ (self m')) ∧
  (links_ok m → links_ok m').
Proof.
  intros Hf. unfold on_result. rewrite Hf. intros Hrun.
  apply bind_Done in Hrun as (r' & Hadd & [= <-]).
  apply addToLastFailure_keeps in Hadd as (Hg & Hlen & Ht & Hroot).
  split; [done|]. unfold links_ok. simpl. by rewrite Hlen, Ht, Hroot.
Qed.

Lemma step_keeps fuel o m m' :
  step fuel o m = Done m' →
  grows (failures_ (self m)) (failures_ (self m')) ∧
  (links_ok m → links_ok m').
Proof.
  destruct o; simpl.
  1: { intros [= <-]. split; [apply grows_refl|done]. }
  1: { apply addFailure_keeps. }
  1: { intros Hrun. apply pushPredicateContext_keeps in Hrun as [-> ?].
       split; [apply grows_refl|done]. }
  1: { intros Hrun. apply popPredicateContext_keeps in Hrun as [-> ?].
       split; [apply grows_refl|done]. }
  all: eapply on_result_keeps; intros r; reflexivity.
Qed.

(** X1. Over any sequence of operations that returns, no Failure Record is
    removed, moved or rewritten: every record stays at its index with its
    file, line, expression and nesting level, and its message only gets
    text appended. *)
Theorem failures_are_kept :
  ∀ (fuel : nat) (ops : list Operation) (m m' : Mem),
    run_ops fuel ops m = Done m' →
    (length (failures_ (self m)) ≤ length (failures_ (self m')))%nat ∧
    ∀ i f, failures_ (self m) !! i = Some f →
      ∃ f', failures_ (self m') !! i = Some f' ∧
            Failure.file_ f' = Failure.file_ f ∧
            Failure.line_ f' = Failure.line_ f ∧
            Failure.expr_ f' = Failure.expr_ f ∧
            Failure.nestingLevel_ f' = Failure.nestingLevel_ f ∧
            ∃ text, Failure.message_ f' = Failure.message_ f +:+ text.
Proof.
  intros fuel ops m m' Hrun.
  assert (Hg : grows (failures_ (self m)) (failures_ (self m'))).
  { revert m Hrun. induction ops as [|o ops IH]; intros m; simpl.
    - intros [= <-]. apply grows_refl.
    - intros Hrun. apply bind_Done in Hrun as (m1 & Hstep & Hrun).
      apply step_keeps in Hstep as [Hg _].
      eapply grows_trans; [done|by apply IH]. }
  split; [by apply grows_length|]. exact Hg.
Qed.

Lemma failures_are_kept_witness :
  ∃ m', run_ops 2%nat sample_ops (mkMem ∅ TestResult_new) = Done m' ∧
        (length (failures_ (self (mkMem ∅ TestResult_new))) ≤
           length (failures_ (self m')))%nat.
Proof.
  eexists. split; [vm_compute; reflexivity|].
  apply (failures_are_kept 2%nat sample_ops). vm_compute. reflexivity.
Defined.

(** X2. From a state in which the message target and the record links of
    all nodes designate existing records, every sequence of operations that
    returns leads to such a state again; there [addToLastFailure] returns,
    it never follows a pointer to no record. *)
Theorem links_stay_valid :
  ∀ (fuel : nat) (ops : list Operation) (m m' : Mem),
    links_ok m →
    run_ops fuel ops m = Done m' →
    links_ok m' ∧
    ∀ text, ∃ r', addToLastFailure text (self m') = Done r'.
Proof.
  intros fuel ops m m' Hok Hrun.
  assert (Hok' : links_ok m').
  { revert m Hok Hrun. induction ops as [|o ops IH]; intros m Hok; simpl.
    - by intros [= <-].
    - intros Hrun. apply bind_Done in Hrun as (m1 & Hstep & Hrun).
      apply step_keeps in Hstep as [_ Hstep]. eapply IH; [|done]. auto. }
  split; [done|]. intros text. unfold addToLastFailure.
  destruct Hok' as (Hmt & _).
  destruct (messageTarget_ (self m')) as [i|]; [|eauto].
  simpl in Hmt. destruct (_ !! i) eqn:E; [eauto|].
  apply lookup_ge_None in E. lia.
Qed.

Lemma links_stay_valid_witness :
  ∃ m', run_ops 2%nat sample_ops (mkMem ∅ TestResult_new) = Done m' ∧
        links_ok m'.
Proof.
  eexists. split; [vm_compute; reflexivity|].
  apply (links_stay_valid 2%nat sample_ops (mkMem ∅ TestResult_new)).
  - repeat split. intros a c Ha. simpl in Ha. rewrite lookup_empty in Ha.
    discriminate.
  - vm_compute. reflexivity.
Defined.

(** * Failures outside predicate assertions *)

Lemma addFailure_no_frames fuel file line expr m :
  PredicateContext.next_ (rootPredicateNode_ (self m)) = None →
  addFailure fuel file line expr m =
    Done (mkMem (frames m)
            (set_messageTarget_ (Some (length (failures_ (self m))))
               (set_failures_
                  (failures_ (self m) ++ [assertion_record file line expr 0])
                  (self m)))).
Proof.
  intros Hroot. unfold addFailure. rewrite Hroot.
  destruct fuel; simpl; unfold on_self, back_ptr; simpl;
    rewrite length_app; simpl;
    replace (Nat.pred (length (failures_ (self m)) + 1))
      with (length (failures_ (self m))) by lia;
    by destruct m as [h []].
Qed.

(** X3. With no predicate assertion in flight, a test body that calls
    [addFailure] n times ends with exactly n more Failure Records, one per
    call and in call order, all at nesting level 0; the watermark, the
    frames and the chain are as before, and the message target is the last
    record. *)
Theorem addFailure_outside_predicates :
  ∀ (fuel : nat) (calls : list (option string * N * option string))
    (m : Mem),
    PredicateContext.next_ (rootPredicateNode_ (self m)) = None →
    ∃ m',
      run_ops fuel (failure_ops calls) m = Done m' ∧
      failures_ (self m') =
        failures_ (self m) ++
          ((λ c, assertion_record c.1.1 c.1.2 c.2 0) <$> calls) ∧
      lastUsedPredicateId_ (self m') = lastUsedPredicateId_ (self m) ∧
      frames m' = frames m ∧
      rootPredicateNode_ (self m') = rootPredicateNode_ (self m) ∧
      (calls ≠ [] →
       messageTarget_ (self m') =
         Some (Nat.pred (length (failures_ (self m'))))).
Proof.
  intros fuel calls. induction calls as [|[[file line] expr] calls IH];
    intros m Hroot.
  - exists m. simpl. rewrite app_nil_r. by repeat split.
  - simpl. rewrite (addFailure_no_frames _ _ _ _ _ Hroot). simpl.
    destruct (IH (mkMem (frames m)
                    (set_messageTarget_ (Some (length (failures_ (self m))))
                       (set_failures_
                          (failures_ (self m) ++
                             [assertion_record file line expr 0])
                          (self m)))))
      as (m' & Hrun & Hfail & Hw & Hfr & Hr & Hmt); [done|].
    exists m'. simpl in *. rewrite <- app_assoc in Hfail.
    repeat (split; [done|]).
    intros _. destruct calls as [|c calls]; [|by apply Hmt].
    simpl in Hrun. injection Hrun as <-. simpl.
    rewrite length_app. simpl. f_equal. lia.
Qed.

Lemma addFailure_outside_predicates_witness :
  ∃ m',
    run_ops 0%nat
      (failure_ops [(Some "t.cpp", 3, Some "a"); (None, 0, None)])
      (mkMem ∅ TestResult_new) = Done m' ∧
    failures_ (self m') =
      [assertion_record (Some "t.cpp") 3 (Some "a") 0;
       assertion_record None 0 None 0].
Proof.
  destruct (addFailure_outside_predicates 0%nat
              [(Some "t.cpp", 3, Some "a"); (None, 0, None)]
              (mkMem ∅ TestResult_new))
    as (m' & Hrun & Hfail & _); [reflexivity|].
  exists m'. split; [exact Hrun|exact Hfail].
Defined.

(** * checkEqual *)

(** [addFailure] on any well-formed chain. *)
Lemma addFailure_on_chain m l fuel file line expr :
  chain (frames m) (PredicateContext.next_ (rootPredicateNode_ (self m))) l →
  (length l ≤ fuel)%nat →
  ∃ m',
    addFailure fuel file line expr m = Done m' ∧
    failures_ (self m') =
      (failures_ (self m) ++
         new_records (lastUsedPredicateId_ (self m)) 0 l) ++
        [assertion_record file line expr (level_after 0 (length l))] ∧
    messageTarget_ (self m') =
      Some (length (failures_ (self m) ++
                      new_records (lastUsedPredicateId_ (self m)) 0 l)).
Proof.
  intros Hch Hfuel.
  destruct (addFailure_walk_chain l fuel _ 0 m Hch Hfuel)
    as (h' & Hrun & _ & _).
  unfold addFailure. rewrite Hrun. simpl.
  eexists. split; [reflexivity|]. simpl. split; [done|].
  unfold back_ptr. simpl. rewrite !length_app. simpl. f_equal. lia.
Qed.

(** Appending to the target when it is the last record. *)
Lemma on_result_append_last (f : TestResult.t → outcome TestResult.t)
    text m pre rec :
  (∀ r, f r = addToLastFailure text r) →
  failures_ (self m) = pre ++ [rec] →
  messageTarget_ (self m) = Some (length pre) →
  ∃ m', on_result f m = Done m' ∧
        failures_ (self m') =
          pre ++ [Failure.set_message_ (Failure.message_ rec +:+ text) rec] ∧
        messageTarget_ (self m') = Some (length pre).
Proof.
  intros Hf Hfail Ht. unfold on_result. rewrite Hf. unfold addToLastFailure.
  rewrite Ht, Hfail.
  assert (Hl : (pre ++ [rec]) !! length pre = Some rec)
    by by rewrite lookup_app_r, Nat.sub_diag by lia.
  destruct ((pre ++ [rec]) !! _) as [g|] eqn:E;
    [|exfalso; rewrite Hl in E; discriminate].
  assert (g = rec) as -> by congruence.
  simpl. eexists. split; [reflexivity|]. simpl. split; [|done].
  replace (length pre) with (length pre + 0)%nat by lia.
  by rewrite insert_app_r.
Qed.



(** X5. [JSONTEST_ASSERT(expr) << text]: when the expression holds the
    state is unchanged and the text is dropped; when it fails, in any
    well-formed chain, the macro reports once and the text becomes the
    message of the assertion's own record, the last one. *)
Theorem JSONTEST_ASSERT_message :
  ∀ (fuel : nat) (expr : bool) (file : string) (line : N)
    (text message : string) (m : Mem)
    (l : list (addr * PredicateContext.t)),
    chain (frames m)
      (PredicateContext.next_ (rootPredicateNode_ (self m))) l →
    (length l ≤ fuel)%nat →
    (expr = true →
     JSONTEST_ASSERT fuel expr file line text (addToLastFailure message) m =
       Done m) ∧
    (expr = false →
     ∃ m' recs,
       JSONTEST_ASSERT fuel expr file line text (addToLastFailure message) m =
         Done m' ∧
       recs `sublist_of` ancestry 0 l ∧
       failures_ (self m') =
         (failures_ (self m) ++ recs) ++
           [Failure.mk (Some file) line (c_str text) message
              (level_after 0 (length l))]).
Proof.
  intros fuel expr file line text message m l Hch Hfuel.
  unfold JSONTEST_ASSERT. split; intros ->; [done|].
  destruct (addFailure_on_chain m l fuel (Some file) line (Some text)
              Hch Hfuel) as (m1 & -> & Hf1 & Ht1).
  destruct (on_result_append_last (addToLastFailure message) message
              m1 _ _ ltac:(done) Hf1 Ht1) as (m2 & E2 & Hf2 & _).
  exists m2, (new_records (lastUsedPredicateId_ (self m)) 0 l).
  cbn [mbind outcome_bind].
  split; [done|]. split; [apply new_records_sublist|]. by rewrite Hf2.
Qed.

Lemma JSONTEST_ASSERT_message_witness :
  ∃ m',
    JSONTEST_ASSERT 2 false "t.cpp" 30 "x == y" (addToLastFailure "x=1")
      sample_mem = Done m' ∧
    failures_ (self m') =
      [frame_record sample_outer 0; frame_record sample_inner 1;
       Failure.mk (Some "t.cpp") 30 "x == y" "x=1" 2].
Proof.
  destruct (JSONTEST_ASSERT_message 2 false "t.cpp" 30 "x == y" "x=1"
              sample_mem sample_chain) as [_ Hne].
  - repeat split; reflexivity.
  - simpl. lia.
  - destruct (Hne eq_refl) as (m' & recs & Hrun & _ & Hfail).
    exists m'. split; [exact Hrun|].
    vm_compute in Hrun. injection Hrun as <-. vm_compute. reflexivity.
Defined.

(** * Looking up a test by name *)

(** The loop of [testIndex] from [index] on: it returns, with the first
    index at or after [index] whose test has the name, or with the flag
    false and [indexOut] as it was. *)
Lemma testIndex_loop_first rn name indexOut : ∀ todo index,
  (index + todo)%nat = testCount rn →
  ∃ b i,
    testIndex_loop rn name todo index indexOut = Done (b, i) ∧
    (b = true →
     (index ≤ i < testCount rn)%nat ∧
     testNameAt rn i = Done name ∧
     ∀ j, (index ≤ j < i)%nat → testNameAt rn j ≠ Done name) ∧
    (b = false →
     i = indexOut ∧
     ∀ j, (index ≤ j < testCount rn)%nat → testNameAt rn j ≠ Done name).
Proof.
  induction todo as [|todo IH]; intros index Hsum.
  - exists false, indexOut. simpl. split; [done|]. split; [done|].
    intros _. split; [done|]. intros j Hj. lia.
  - unfold testCount in Hsum.
    destruct (lookup_lt_is_Some_2 (tests_ rn) index) as [test Htest]; [lia|].
    assert (Hname : testNameAt rn index = Done (c_str (testName test)))
      by (unfold testNameAt; by rewrite Htest).
    cbn [testIndex_loop]. rewrite Hname. cbn [mbind outcome_bind].
    destruct (String.eqb (c_str (testName test)) name) eqn:Heq.
    + apply String.eqb_eq in Heq. exists true, index.
      split; [done|]. split; [|done]. intros _.
      split; [unfold testCount; lia|]. split; [by rewrite Hname, Heq|].
      intros j Hj. lia.
    + apply String.eqb_neq in Heq.
      destruct (IH (S index)) as (b & i & Hrun & Htrue & Hfalse);
        [unfold testCount; lia|].
      exists b, i. split; [done|]. split.
      * intros Hb. destruct (Htrue Hb) as (Hi & Hin & Hfirst).
        split; [lia|]. split; [done|]. intros j Hj.
        destruct (decide (j = index)) as [->|Hne].
        -- rewrite Hname. congruence.
        -- apply Hfirst. lia.
      * intros Hb. destruct (Hfalse Hb) as (Hi & Hnone).
        split; [done|]. intros j Hj.
        destruct (decide (j = index)) as [->|Hne].
        -- rewrite Hname. congruence.
        -- apply Hnone. lia.
Qed.

(** X6. [Runner::testIndex] always returns.  If it returns true, the index
    it stores is in range, the test there has the name, and no test before
    it has; if it returns false, no registered test has the name and the
    index parameter keeps its value. *)
Theorem testIndex_finds_first :
  ∀ (rn : Runner) (name : string) (indexOut : nat),
    ∃ b i,
      testIndex name indexOut rn = Done (b, i) ∧
      (b = true →
       (i < testCount rn)%nat ∧
       testNameAt rn i = Done name ∧
       ∀ j, (j < i)%nat → testNameAt rn j ≠ Done name) ∧
      (b = false →
       i = indexOut ∧
       ∀ j, (j < testCount rn)%nat → testNameAt rn j ≠ Done name).
Proof.
  intros rn name indexOut.
  destruct (testIndex_loop_first rn name indexOut (testCount rn) 0)
    as (b & i & Hrun & Htrue & Hfalse); [done|].
  exists b, i. split; [done|]. split.
  - intros Hb. destruct (Htrue Hb) as (Hi & Hin & Hfirst).
    split; [lia|]. split; [done|]. intros j Hj. apply Hfirst. lia.
  - intros Hb. destruct (Hfalse Hb) as (Hi & Hnone).
    split; [done|]. intros j Hj. apply Hnone. lia.
Qed.

Lemma testIndex_finds_first_witness :
  testIndex "Fix/two" 7
    (add (mkTestCase "Fix/two" (λ r out, Done (r, out)))
       (add (mkTestCase "Fix/two" (λ r out, Done (r, out)))
          (add (mkTestCase "Fix/one" (λ r out, Done (r, out))) Runner_new)))
    = Done (true, 1%nat).
Proof.
  destruct (testIndex_finds_first
              (add (mkTestCase "Fix/two" (λ r out, Done (r, out)))
                 (add (mkTestCase "Fix/two" (λ r out, Done (r, out)))
                    (add (mkTestCase "Fix/one" (λ r out, Done (r, out)))
                       Runner_new))) "Fix/two" 7)
    as (b & i & Hrun & _).
  vm_compute in Hrun. injection Hrun as <- <-. vm_compute. reflexivity.
Defined.

(** X7. Registering a test appends it: the count grows by one, the tests
    registered before keep their indices and names, the new test's name is
    at the old count, and if no test had that name before, [testIndex]
    finds it there. *)
Theorem add_registers_last :
  ∀ (rn : Runner) (factory : TestCase) (indexOut : nat),
    testCount (add factory rn) = S (testCount rn) ∧
    (∀ j, (j < testCount rn)%nat →
       testNameAt (add factory rn) j = testNameAt rn j) ∧
    testNameAt (add factory rn) (testCount rn) =
      Done (c_str (testName factory)) ∧
    ((∀ j, (j < testCount rn)%nat →
        testNameAt rn j ≠ Done (c_str (testName factory))) →
     testIndex (c_str (testName factory)) indexOut (add factory rn) =
       Done (true, testCount rn)).
Proof.
  intros rn factory indexOut.
  assert (Hcount : testCount (add factory rn) = S (testCount rn)).
  { unfold testCount, add. simpl. rewrite length_app. simpl. lia. }
  assert (Hold : ∀ j, (j < testCount rn)%nat →
                      testNameAt (add factory rn) j = testNameAt rn j).
  { intros j Hj. unfold testNameAt, add. simpl.
    by rewrite lookup_app_l by done. }
  assert (Hnew : testNameAt (add factory rn) (testCount rn) =
                 Done (c_str (testName factory))).
  { unfold testNameAt, add, testCount. simpl.
    by rewrite lookup_app_r, Nat.sub_diag by lia. }
  split; [done|]. split; [done|]. split; [done|].
  intros Hfree.
  unfold testIndex.
  destruct (testIndex_loop_first (add factory rn)
              (c_str (testName factory)) indexOut
              (testCount (add factory rn)) 0)
    as (b & i & Hrun & Htrue & Hfalse); [done|].
  rewrite Hrun. destruct b.
  - destruct (Htrue eq_refl) as (Hi & Hin & Hfirst).
    do 2 f_equal. rewrite Hcount in Hi.
    destruct (decide (i = testCount rn)) as [->|Hne]; [done|].
    exfalso. apply (Hfree i); [lia|]. rewrite <- Hold by lia. done.
  - destruct (Hfalse eq_refl) as (_ & Hnone).
    exfalso. apply (Hnone (testCount rn)); [lia|done].
Qed.

Lemma add_registers_last_witness :
  testIndex "Fix/two" 7
    (add (mkTestCase "Fix/two" (λ r out, Done (r, out)))
       (add (mkTestCase "Fix/one" (λ r out, Done (r, out))) Runner_new))
    = Done (true, 1%nat).
Proof.
  apply (proj2 (proj2 (proj2
           (add_registers_last
              (add (mkTestCase "Fix/one" (λ r out, Done (r, out))) Runner_new)
              (mkTestCase "Fix/two" (λ r out, Done (r, out))) 7)))).
  intros j Hj. assert (j = 0)%nat as -> by (vm_compute in Hj; lia).
  vm_compute. discriminate.
Defined.

(** * Running all tests *)

Lemma printFailure_returns printTestName r out :
  ∃ out', printFailure printTestName r out = Done out'.
Proof.
  unfold printFailure. destruct (empty (failures_ r)); [eauto|].
  rewrite printFailure_loop_render. eauto.
Qed.

Lemma runAllTest_report_returns printTestName failures : ∀ out,
  ∃ out', runAllTest_report printTestName failures out = Done out'.
Proof.
  induction failures as [|r rest IH]; intros out; simpl; [eauto|].
  destruct (printFailure_returns printTestName r out) as (out1 & ->).
  simpl. apply IH.
Qed.

(** The first loop when every test returns: it returns, and appends a
    result exactly for the tests that left a failure. *)
Lemma runAllTest_loop_returns rn :
  (∀ test, test ∈ tests_ rn → returns test) →
  ∀ todo index failures out,
    (index + todo)%nat = testCount rn →
    ∃ failures' out',
      runAllTest_loop rn todo index failures out =
        Done (failures ++ failures', out') ∧
      (length failures' ≤ todo)%nat ∧
      ((∀ i test, (index ≤ i)%nat → tests_ rn !! i = Some test →
          passes test) → failures' = []) ∧
      ((∃ i test, (index ≤ i)%nat ∧ tests_ rn !! i = Some test ∧
          fails test) → failures' ≠ []).
Proof.
  intros Hret. induction todo as [|todo IH]; intros index failures out Hsum.
  - exists [], out. simpl. rewrite app_nil_r. split; [done|].
    split; [done|]. split; [done|].
    intros (i & test & Hi & Htest & _).
    apply lookup_lt_Some in Htest. unfold testCount in Hsum. lia.
  - unfold testCount in Hsum.
    destruct (lookup_lt_is_Some_2 (tests_ rn) index) as [test Htest]; [lia|].
    assert (Hin : test ∈ tests_ rn) by (apply list_elem_of_lookup; eauto).
    destruct (Hret test Hin
                (out +:+ "Testing " +:+ c_str (testName test) +:+ ": "))
      as (r' & out' & Hrun). unfold started in Hrun.
    cbn [runAllTest_loop]. unfold runTestAt, run. rewrite Htest.
    cbn [mbind outcome_bind]. rewrite Hrun. cbn [mbind outcome_bind].
    destruct (IH (S index)
                (if failed r' then failures ++ [r'] else failures)
                (out' +:+ (if failed r' then "FAILED" else "OK") +:+ LF))
      as (fs & out2 & Hloop & Hlen & Hpass & Hfail); [unfold testCount; lia|].
    rewrite Hloop. unfold failed in *.
    destruct (failures_ r') as [|f0 fr] eqn:Hfr; simpl in *.
    + exists fs, out2. split; [done|]. split; [lia|]. split.
      * intros Hall. apply Hpass. intros i t Hi. apply Hall. lia.
      * intros (i & t & Hi & Ht & Hf). apply Hfail.
        destruct (decide (i = index)) as [->|Hne].
        -- rewrite Htest in Ht. injection Ht as <-.
           exfalso. by apply (Hf _ _ _ Hrun).
        -- exists i, t. split; [lia|done].
    + exists (r' :: fs), out2. rewrite <- app_assoc. split; [done|].
      split; [simpl; lia|]. split; [|done].
      intros Hall. exfalso.
      destruct (Hall index test ltac:(lia) Htest
                  (out +:+ "Testing " +:+ c_str (testName test) +:+ ": "))
        as (r2 & out3 & Hrun2 & Hnone).
      unfold started in Hrun2. rewrite Hrun in Hrun2. injection Hrun2 as <- <-. congruence.
Qed.

Lemma passes_returns test : passes test → returns test.
Proof.
  intros Hp out. destruct (Hp out) as (r' & out' & Hrun & _). eauto.
Qed.

(** X8. If every registered test passes, [runAllTest] returns true; with
    the summary asked for, the last line printed is
    ["All <count> tests passed"], and no failure detail is printed: the
    output is the progress lines of the first loop and that line. *)
Theorem runAllTest_all_pass :
  ∀ (printSummary : bool) (rn : Runner) (out : Stdout),
    (∀ test, test ∈ tests_ rn → passes test) →
    ∃ progress,
      runAllTest_loop rn (testCount rn) 0 [] out = Done ([], progress) ∧
      runAllTest printSummary rn out =
        Done (true,
              if printSummary then
                progress +:+ "All " +:+ pretty (N.of_nat (testCount rn)) +:+
                  " tests passed" +:+ LF
              else progress).
Proof.
  intros printSummary rn out Hpass.
  destruct (runAllTest_loop_returns rn) with (todo := testCount rn)
    (index := 0%nat) (failures := @nil TestResult.t) (out := out)
    as (fs & progress & Hloop & _ & Hnone & _).
  { intros test Hin. by apply passes_returns, Hpass. }
  { done. }
  rewrite Hnone in Hloop.
  2: { intros i test _ Hi. apply Hpass. apply list_elem_of_lookup. eauto. }
  exists progress. simpl in Hloop. split; [done|].
  unfold runAllTest. rewrite Hloop. by destruct printSummary.
Qed.

Lemma runAllTest_all_pass_witness :
  runAllTest true (add sample_passing (add sample_passing Runner_new)) "" =
    Done (true,
          "Testing Fix/one: OK" +:+ LF +:+ "Testing Fix/one: OK" +:+ LF +:+
          "All 2 tests passed" +:+ LF).
Proof.
  destruct (runAllTest_all_pass true
              (add sample_passing (add sample_passing Runner_new)) "")
    as (progress & Hloop & Hrun).
  - intros test Hin out.
    assert (test = sample_passing) as ->.
    { apply elem_of_cons in Hin as [->|Hin]; [done|].
      apply elem_of_cons in Hin as [->|Hin]; [done|].
      by apply elem_of_nil in Hin. }
    eexists _, _. split; reflexivity.
  - vm_compute in Hloop. injection Hloop as <-. exact Hrun.
Defined.

(** X9. If every registered test returns and one of them fails,
    [runAllTest] returns false; with the summary asked for, the last line
    printed is ["<passed>/<count> tests passed (<failed> failure(s))"],
    where at least one and at most [count] tests failed and the passed ones
    are the rest. *)
Theorem runAllTest_some_fail :
  ∀ (printSummary : bool) (rn : Runner) (out : Stdout) (test : TestCase),
    (∀ t, t ∈ tests_ rn → returns t) →
    test ∈ tests_ rn →
    fails test →
    ∃ detail failedCount,
      (1 ≤ failedCount ≤ testCount rn)%nat ∧
      runAllTest printSummary rn out =
        Done (false,
              if printSummary then
                detail +:+ failure_summary (testCount rn) failedCount
              else detail).
Proof.
  intros printSummary rn out test Hret Hin Hfails.
  destruct (runAllTest_loop_returns rn Hret (testCount rn) 0 [] out)
    as (fs & progress & Hloop & Hlen & _ & Hsome); [done|].
  assert (Hne : fs ≠ []).
  { apply Hsome. apply list_elem_of_lookup in Hin as (i & Hi).
    exists i, test. split; [lia|done]. }
  simpl in Hloop.
  destruct (runAllTest_report_returns
              (bool_decide (1 < testCount rn)%nat) fs progress)
    as (detail & Hreport).
  exists detail, (length fs). split.
  - destruct fs; [done|]. simpl in *. lia.
  - unfold runAllTest. rewrite Hloop. cbn [mbind outcome_bind].
    destruct fs as [|r fs']; [done|]. cbn [empty].
    rewrite Hreport. cbn [mbind outcome_bind].
    destruct printSummary; [|done].
    reflexivity.
Qed.

Lemma runAllTest_some_fail_witness :
  ∃ detail failedCount,
    (1 ≤ failedCount ≤ 3)%nat ∧
    runAllTest true
      (add sample_passing (add sample_failing (add sample_passing Runner_new)))
      "" =
      Done (false, detail +:+ failure_summary 3 failedCount).
Proof.
  apply (runAllTest_some_fail true
           (add sample_passing
              (add sample_failing (add sample_passing Runner_new)))
           "" sample_failing).
  - intros t Hin out0.
    assert (t = sample_passing ∨ t = sample_failing) as [->| ->].
    { apply elem_of_cons in Hin as [->|Hin]; [by left|].
      apply elem_of_cons in Hin as [->|Hin]; [by right|].
      apply elem_of_cons in Hin as [->|Hin]; [by left|].
      by apply elem_of_nil in Hin. }
    + eexists _, _. reflexivity.
    + eexists _, _. reflexivity.
  - apply elem_of_cons. right. apply elem_of_cons. by left.
  - intros out0 r' out' Hrun0. vm_compute in Hrun0.
    injection Hrun0 as <- _. discriminate.
Defined.

(** The run of three tests of which the second fails. *)
Example runAllTest_two_of_three :
  runAllTest true
    (add sample_passing (add sample_failing (add sample_passing Runner_new)))
    "" =
    Done (false,
          "Testing Fix/one: OK" +:+ LF +:+
          "Testing Fix/two: FAILED" +:+ LF +:+
          "Testing Fix/one: OK" +:+ LF +:+
          "* Detail of Fix/two test failure:" +:+ LF +:+
          "a.cpp(3): 1 == 2" +:+ LF +:+
          "  -5" +:+ LF +:+
          "2/3 tests passed (1 failure(s))" +:+ LF).
Proof. vm_compute. reflexivity. Qed.

(** * indentText on its own *)

Lemma spec_indent_lines_no_indent text : ∀ b,
  spec_indent_lines "" b text = text.
Proof.
  induction text as [|c text IH]; intros b; simpl; [done|].
  rewrite IH. by destruct b.
Qed.

Lemma string_app_length (s1 s2 : string) :
  String.length (s1 +:+ s2) = (String.length s1 + String.length s2)%nat.
Proof.
  induction s1 as [|c s1 IH]; [done|].
  change (S (String.length (s1 +:+ s2)) =
          S (String.length s1 + String.length s2)).
  by rewrite IH.
Qed.

Lemma spec_indent_lines_length indent text : ∀ b,
  (String.length text ≤ String.length (spec_indent_lines indent b text))%nat.
Proof.
  induction text as [|c text IH]; intros b; simpl; [done|].
  specialize (IH (bool_decide (c = "010"%char))).
  destruct b; rewrite string_app_length; simpl; lia.
Qed.

(** X10. [TestResult::indentText] returns for every text and indent.  The
    result is the text with the indent put before its first character and
    after every line feed that is not the last character; so the empty text
    gives the empty text, an empty indent gives the text back, and nothing
    of the text is lost. *)
Theorem indentText_indents_every_line :
  ∀ (text indent : string),
    ∃ reindented,
      indentText text indent = Done reindented ∧
      reindented = spec_indent_lines indent true text ∧
      (text = "" → reindented = "") ∧
      (indent = "" → reindented = text) ∧
      (String.length text ≤ String.length reindented)%nat ∧
      (find "010"%char 0 text = None → text ≠ "" →
       reindented = indent +:+ text).
Proof.
  intros text indent. exists (spec_indent_lines indent true text).
  split; [apply indentText_lines|]. split; [done|].
  split; [by intros ->|]. split; [intros ->; apply spec_indent_lines_no_indent|].
  split; [apply spec_indent_lines_length|].
  intros Hfind Hne. destruct text as [|c text]; [done|].
  simpl in Hfind. case_decide as Hc; [done|].
  destruct (find "010" 0 text) eqn:Hf; [done|].
  simpl. rewrite bool_decide_eq_false_2 by done.
  by rewrite indent_lines_no_feed.
Qed.

Lemma indentText_indents_every_line_witness :
  indentText ("Expected: 1" +:+ LF +:+ "Actual  : 2") "  " =
    Done ("  Expected: 1" +:+ LF +:+ "  Actual  : 2") ∧
  indentText "one line" "--" = Done "--one line".
Proof.
  split.
  - destruct (indentText_indents_every_line
                ("Expected: 1" +:+ LF +:+ "Actual  : 2") "  ")
      as (res & Hrun & -> & _).
    exact Hrun.
  - destruct (indentText_indents_every_line "one line" "--")
      as (res & Hrun & _ & _ & _ & _ & Hone).
    rewrite Hrun. f_equal. apply Hone; [reflexivity|discriminate].
Defined.

(** * A predicate assertion without a failure *)



(** * The id counter stays ahead *)

Lemma load_id_below p m c :
  ids_below_counter m → load p m = Done c →
  PredicateContext.id_ c < predicateId_ (self m).
Proof.
  intros (_ & Hroot & Hframes). destruct p as [[|a]|]; simpl; try done.
  - by intros [= <-].
  - destruct (frames m !! a) as [c'|] eqn:Ha; [|done].
    intros [= <-]. by eapply Hframes.
Qed.

(** Writing a link of a node keeps the ids. *)
Lemma poke_ids_below p f h r r' :
  (∀ c, PredicateContext.id_ (f c) = PredicateContext.id_ c) →
  predicateId_ r' = predicateId_ r →
  rootPredicateNode_ r' = rootPredicateNode_ r →
  lastUsedPredicateId_ r' < predicateId_ r →
  ids_below_counter (mkMem h r) →
  ids_below_counter (poke p f (mkMem h r')).
Proof.
  intros Hf Hpid Hroot Hw (_ & Hr & Hframes). simpl in *.
  destruct p as [|a]; unfold ids_below_counter; simpl; rewrite Hpid.
  - split; [done|]. split; [by rewrite Hf, Hroot|done].
  - split; [done|]. split; [by rewrite Hroot|].
    intros b c. rewrite lookup_alter. case_decide.
    + destruct (h !! _) as [c0|] eqn:Hb; simpl; [|done]. intros [= <-].
      rewrite Hf. by eapply Hframes.
    + apply Hframes.
Qed.

Lemma addFailure_walk_ids fuel : ∀ p lvl m lvl' m',
  ids_below_counter m →
  addFailure_walk fuel p lvl m = Done (lvl', m') →
  ids_below_counter m' ∧ predicateId_ (self m') = predicateId_ (self m).
Proof.
  induction fuel as [|fuel IH]; intros p lvl m lvl' m' Hok.
  - destruct p; simpl; [discriminate|]. by intros [= _ <-].
  - destruct p as [p|]; [|simpl; by intros [= _ <-]].
    cbn -[load poke]. intros Hrun.
    apply bind_Done in Hrun as (node & Hnode & Hrun).
    destruct (lastUsedPredicateId_ (self m) <? PredicateContext.id_ node);
      [|by apply IH in Hrun].
    pose proof (load_id_below _ _ _ Hok Hnode) as Hid.
    destruct m as [h r].
    apply IH in Hrun as [Hok' Hpid].
    + split; [done|]. rewrite Hpid. by destruct p.
    + cbn [on_self frames self].
      apply poke_ids_below with (r := r); try done.
Qed.

Lemma addToLastFailure_fields text r r' :
  addToLastFailure text r = Done r' →
  predicateId_ r' = predicateId_ r ∧
  lastUsedPredicateId_ r' = lastUsedPredicateId_ r ∧
  rootPredicateNode_ r' = rootPredicateNode_ r.
Proof.
  unfold addToLastFailure.
  destruct (messageTarget_ r); [|by intros [= <-]].
  destruct (failures_ r !! _); [|discriminate]. by intros [= <-].
Qed.

Lemma step_ids fuel o m m' :
  ids_below_counter m →
  predicateId_ (self m) + N.of_nat (pushes [o]) < UINT_MODULUS →
  step fuel o m = Done m' →
  ids_below_counter m' ∧
  predicateId_ (self m') = predicateId_ (self m) + N.of_nat (pushes [o]).
Proof.
  intros Hok Hpid. destruct o; simpl in *.
  1: { intros [= <-]. split; [done|simpl; lia]. }
  1: { unfold addFailure. intros Hrun.
       apply bind_Done in Hrun as ([lvl m1] & Hwalk & [= <-]).
       apply addFailure_walk_ids in Hwalk as [Hok1 Hpid1]; [|done].
       simpl. rewrite Hpid1. split; [done|lia]. }
  1: { unfold pushPredicateContext. cbn -[load poke].
       destruct (predicateStackTail_ (self m)) as [tail|]; [|discriminate].
       intros Hrun. apply bind_Done in Hrun as (_ & _ & [= <-]).
       destruct m as [h r]. destruct Hok as (Hw & Hr & Hframes). simpl in *.
       unfold wrap32. split.
       - unfold ids_below_counter.
         destruct tail as [|t]; simpl; rewrite N.mod_small by lia.
         + split; [lia|]. split; [lia|]. intros b c.
           rewrite lookup_insert. case_decide.
           * intros [= <-]. simpl. lia.
           * intros Hb. specialize (Hframes _ _ Hb). lia.
         + split; [lia|]. split; [lia|]. intros b c.
           rewrite lookup_alter.
           assert (Hins : ∀ k ck,
                     <[a:=PredicateContext.mk (predicateId_ r) (Some file)
                            line (Some expr) None None]> h !! k = Some ck →
                     PredicateContext.id_ ck < predicateId_ r + 1).
           { intros k ck. rewrite lookup_insert. case_decide.
             - intros [= <-]. simpl. lia.
             - intros Hk. specialize (Hframes _ _ Hk). lia. }
           case_decide.
           * destruct (_ !! _) as [c0|] eqn:Hb; simpl; [|done].
             intros [= <-]. simpl. by eapply Hins.
           * apply Hins.
       - destruct tail; simpl; rewrite N.mod_small by lia; lia. }
  1: { unfold popPredicateContext. intros Hrun.
       apply bind_Done in Hrun as (lastNode & _ & Hrun).
       apply bind_Done in Hrun as (node & _ & Hrun).
       apply bind_Done in Hrun as (m1 & Hm1 & [= <-]).
       assert (Hm1' : ∃ mt, m1 = on_self (set_messageTarget_ mt) m).
       { destruct (PredicateContext.next_ node).
         - apply bind_Done in Hm1 as (tnode & _ & Hm1).
           destruct (PredicateContext.failure_ tnode); injection Hm1 as <-;
             [eauto|].
           exists (messageTarget_ (self m)). by destruct m as [h []].
         - injection Hm1 as <-.
           exists (messageTarget_ (self m)). by destruct m as [h []]. }
       destruct Hm1' as (mt & ->). destruct m as [h r].
       split.
       - cbn [on_self frames self].
         apply poke_ids_below with (r := r); try done. by destruct Hok.
       - destruct lastNode; simpl; lia. }
  all: unfold on_result; intros Hrun;
    apply bind_Done in Hrun as (r' & Hrun & [= <-]);
    apply addToLastFailure_fields in Hrun as (Hp & Hw & Hroot);
    unfold ids_below_counter; simpl; rewrite Hp, Hw, Hroot;
    (split; [done|lia]).
Qed.

(** X12. From a state in which the watermark and all node ids are below
    the id counter, and as long as the counter does not pass 2^32, every
    sequence of operations that returns leads to such a state again, with
    the counter advanced by the number of predicate assertions entered: the
    watermark stays below the counter, so a frame entered next gets an id
    above the watermark. *)
Theorem id_counter_stays_ahead :
  ∀ (fuel : nat) (ops : list Operation) (m m' : Mem),
    ids_below_counter m →
    predicateId_ (self m) + N.of_nat (pushes ops) < UINT_MODULUS →
    run_ops fuel ops m = Done m' →
    ids_below_counter m' ∧
    predicateId_ (self m') = predicateId_ (self m) + N.of_nat (pushes ops) ∧
    lastUsedPredicateId_ (self m') < predicateId_ (self m').
Proof.
  intros fuel ops.
  assert (H : ∀ m m', ids_below_counter m →
            predicateId_ (self m) + N.of_nat (pushes ops) < UINT_MODULUS →
            run_ops fuel ops m = Done m' →
            ids_below_counter m' ∧
            predicateId_ (self m') =
              predicateId_ (self m) + N.of_nat (pushes ops)).
  { induction ops as [|o ops IH]; intros m m' Hok Hpid; cbn [run_ops].
    - intros [= <-]. split; [done|simpl; lia].
    - intros Hrun. apply bind_Done in Hrun as (m1 & Hstep & Hrun).
      assert (Hsplit : pushes (o :: ops) = (pushes [o] + pushes ops)%nat)
        by by destruct o.
      rewrite Hsplit in *.
      apply step_ids in Hstep as [Hok1 Hpid1]; [|done|lia].
      apply IH in Hrun as [Hok' Hpid']; [|done|lia].
      split; [done|lia]. }
  intros m m' Hok Hpid Hrun.
  destruct (H m m' Hok Hpid Hrun) as [Hok' Hpid'].
  split; [done|]. split; [done|]. by destruct Hok'.
Qed.

Lemma id_counter_stays_ahead_witness :
  ∃ m', run_ops 2%nat sample_ops (mkMem ∅ TestResult_new) = Done m' ∧
        ids_below_counter m' ∧
        predicateId_ (self m') = 1 + 2 ∧
        lastUsedPredicateId_ (self m') < predicateId_ (self m').
Proof.
  eexists. split; [vm_compute; reflexivity|].
  apply (id_counter_stays_ahead 2%nat sample_ops (mkMem ∅ TestResult_new)).
  - repeat split. intros a c Ha. simpl in Ha. rewrite lookup_empty in Ha.
    discriminate.
  - reflexivity.
  - vm_compute. reflexivity.
Defined.

(** * A predicate assertion around a failure *)

Lemma level_after_snoc lvl k :
  level_after lvl (S k) = wrap32 (level_after lvl k + 1).
Proof.
  revert lvl. induction k as [|k IH]; intros lvl; [done|].
  change (level_after lvl (S (S k)))
    with (level_after (wrap32 (lvl + 1)) (S k)).
  by rewrite IH.
Qed.



Lemma new_watermark_snoc l x : ∀ w,
  new_watermark w l < PredicateContext.id_ x.2 →
  new_watermark w (l ++ [x]) = PredicateContext.id_ x.2.
Proof.
  induction l as [|[a c] l IH]; intros w Hx; destruct x as [ax cx];
    simpl in *.
  - by apply N.ltb_lt in Hx as ->.
  - destruct (w <? PredicateContext.id_ c); by rewrite IH.
Qed.

Lemma new_records_length_le w lvl l :
  (length (new_records w lvl l) ≤ length l)%nat.
Proof.
  pose proof (sublist_length _ _ (new_records_sublist w lvl l)) as H.
  by rewrite ancestry_length in H.
Qed.















(** * failed *)

(** X14. [failed()] is false on a new result, true after every
    [addFailure] that returns, and once true it stays true over any
    sequence of operations. *)
Theorem failed_is_sticky :
  failed TestResult_new = false ∧
  (∀ fuel file line expr m m',
     addFailure fuel file line expr m = Done m' → failed (self m') = true) ∧
  (∀ fuel ops m m',
     run_ops fuel ops m = Done m' →
     failed (self m) = true → failed (self m') = true).
Proof.
  split; [done|]. split.
  - intros fuel file line expr m m'. unfold addFailure. intros Hrun.
    apply bind_Done in Hrun as ([lvl m1] & _ & [= <-]).
    unfold failed. simpl. by destruct (failures_ (self m1)).
  - intros fuel ops m m' Hrun.
    assert (Hlen : (length (failures_ (self m)) ≤
                    length (failures_ (self m')))%nat).
    { apply grows_length. revert m Hrun.
      induction ops as [|o ops IH]; intros m; simpl.
      - intros [= <-]. apply grows_refl.
      - intros Hrun. apply bind_Done in Hrun as (m1 & Hstep & Hrun).
        apply step_keeps in Hstep as [Hg _].
        eapply grows_trans; [done|by apply IH]. }
    unfold failed.
    destruct (failures_ (self m)); [done|].
    destruct (failures_ (self m')); [simpl in Hlen; lia|done].
Qed.

Lemma failed_is_sticky_witness :
  ∃ m', run_ops 2%nat sample_ops (mkMem ∅ TestResult_new) = Done m' ∧
        failed (self m') = true.
Proof.
  eexists. split; [vm_compute; reflexivity|].
  destruct (proj2 failed_is_sticky) as [_ Hsticky].
  apply (Hsticky 2%nat (drop 3 sample_ops) sample_failed).
  - vm_compute. reflexivity.
  - reflexivity.
Defined.

(** * addFailure after the id counter wrapped *)

(** The wrapped state is what the macro produces at the counter's limit. *)
Example wrapped_mem_reached :
  enter_all [mkSite 100 "t.cpp" 10 "outer()"; mkSite 200 "t.cpp" 20 "inner()"]
    counter_at_limit = Done wrapped_mem.
Proof. vm_compute. reflexivity. Qed.

(** There the failure of the innermost assertion is reported with two
    records, not three: the inner frame, whose id 0 is not above the
    watermark, is skipped, and level 1 is missing. *)
Example addFailure_on_wrapped_mem :
  ∃ m', addFailure 2 (Some "t.cpp") 30 (Some "x == y") wrapped_mem = Done m' ∧
        failures_ (self m') =
          [frame_record wrapped_outer 0;
           assertion_record (Some "t.cpp") 30 (Some "x == y") 2].
Proof. eexists. split; vm_compute; reflexivity. Qed.

